(** * durable-chat: the chat room server, its message log and its
      streaming assistant reply

    Two versions of the room server are embedded:
    - [Durable]: the server that keeps the log in memory and mirrors it
      into the room's SQL table through [saveMessage];
    - [InMemory]: [src/server/index.ts], the server that keeps the log in
      memory only.
    The message handler of both is embedded a second time in [Untyped],
    over objects whose fields hold any value, for the payloads that carry
    the tag of an event without its shape.

    A handler is a function from the room's state to a completion (return
    or throw), the state it leaves and the effects it performed, in order:
    messages sent to one connection, broadcasts, SQL statements and the
    call of the completion backend. A handler run is taken on its own: no
    other event of the room is handled between two of its steps. What the
    environment hands to a run ([JSON.parse], the id [nanoid(8)] returns,
    the events of the backend stream) is an argument of the handler. *)

From Stdlib Require Import String Ascii.
From stdpp Require Import gmap strings list fin_maps.

Local Open Scope string_scope.
Local Open Scope list_scope.

(** ** Shared types (imported by the server from [../shared]) *)

(** Modelled from the spec: the declaration of the role type is in
    [../shared], which the server only imports; the spec gives a closed set
    of two roles, user-originated and assistant-originated. *)
Inductive Role : Type :=
  | RoleUser
  | RoleAssistant.

(** [ChatMessage], declared in [../shared]: the fields the server reads
    and writes (the literal [aiMessage], the columns of the table). *)
Record ChatMessage : Type := mkChatMessage {
  id : string;
  content : string;
  user : string;
  role : Role
}.

(** [Message]: the tagged union of the wire events. *)
Inductive Message : Type :=
  | Add (m : ChatMessage)
  | Update (m : ChatMessage)
  | All (messages : list ChatMessage).

(** [{ ...m, content: c }] *)
Definition with_content (m : ChatMessage) (c : string) : ChatMessage :=
  {| id := id m; content := c; user := user m; role := role m |}.

(** What travels on a socket: the bytes a client sent, relayed as they
    are, or the text [JSON.stringify(m)] of a structured event. *)
Inductive Wire : Type :=
  | Raw (bytes : string)
  | Stringify (m : Message).

(** One entry of the prompt: [{ content: m.content, role: m.role }]. *)
Definition PromptEntry : Type := (string * Role)%type.

Definition to_prompt (m : ChatMessage) : PromptEntry := (content m, role m).

(** The statement [saveMessage] executes, with its five bindings:
    [INSERT INTO messages (id, user, role, content) VALUES (?, ?, ?, ?)
     ON CONFLICT (id) DO UPDATE SET content = ?]. *)
Record SqlUpsert : Type := mkSqlUpsert {
  bind_id : string;
  bind_user : string;
  bind_role : Role;
  bind_content : string;
  bind_conflict_content : string
}.

(** The effects of a handler, in the order the code performs them. *)
Inductive Effect : Type :=
  | Send (connection : string) (data : Wire)
  | Broadcast (data : Wire) (exclude : list string)
  | SqlExec (q : SqlUpsert)
  | AiRun (model : string) (prompt : list PromptEntry).

(** ** Completions and the handler monad *)

Inductive Exception : Type :=
  | SyntaxError
  | TypeError.

Inductive Completion (A : Type) : Type :=
  | Returned (a : A)
  | Thrown (e : Exception).
Arguments Returned {A} a.
Arguments Thrown {A} e.

Definition Handler (St A : Type) : Type :=
  St -> Completion A * St * list Effect.

Definition ret {St A} (a : A) : Handler St A :=
  fun s => (Returned a, s, []).

Definition bind {St A B} (c : Handler St A) (k : A -> Handler St B) : Handler St B :=
  fun s =>
    match c s with
    | (Returned a, s1, t1) =>
        match k a s1 with
        | (r, s2, t2) => (r, s2, t1 ++ t2)
        end
    | (Thrown e, s1, t1) => (Thrown e, s1, t1)
    end.

Definition get {St} : Handler St St :=
  fun s => (Returned s, s, []).

Definition put {St} (s' : St) : Handler St unit :=
  fun _ => (Returned tt, s', []).

Definition emit {St} (e : Effect) : Handler St unit :=
  fun s => (Returned tt, s, [e]).

(** A call that returns or throws, lifted into a handler. *)
Definition lift {St A} (c : Completion A) : Handler St A :=
  fun s => (c, s, []).

Notation "'let*' x ':=' c 'in' k" := (bind c (fun x => k))
  (at level 10, x name, c at level 100, k at level 200).
Notation "c '>>' k" := (bind c (fun _ => k))
  (at level 90, right associativity).

Definition completion_of {St A} (r : Completion A * St * list Effect) : Completion A :=
  fst (fst r).
Definition state_of {St A} (r : Completion A * St * list Effect) : St :=
  snd (fst r).
Definition effects_of {St A} (r : Completion A * St * list Effect) : list Effect :=
  snd r.

(** ** Delivery

    partyserver's [connection.send] reaches that connection; its
    [broadcast(msg, without)] reaches every connected participant whose id
    is not listed in [without]. [inbox c t] is what a connected participant
    [c] receives from the effects [t], in order. *)
Definition delivered (c : string) (e : Effect) : option Wire :=
  match e with
  | Send c' d => if String.eqb c' c then Some d else None
  | Broadcast d exclude => if existsb (String.eqb c) exclude then None else Some d
  | SqlExec _ => None
  | AiRun _ _ => None
  end.

Definition inbox (c : string) (t : list Effect) : list Wire :=
  omap (delivered c) t.

(** The [update] events broadcast for one reply id, in broadcast order. *)
Definition update_of (i : string) (e : Effect) : option ChatMessage :=
  match e with
  | Broadcast (Stringify (Update m)) _ =>
      if String.eqb (id m) i then Some m else None
  | _ => None
  end.

Definition updates_for (i : string) (t : list Effect) : list ChatMessage :=
  omap (update_of i) t.


(** The prompts passed to the completion backend. *)
Definition prompt_of (e : Effect) : option (list PromptEntry) :=
  match e with
  | AiRun _ p => Some p
  | _ => None
  end.

Definition prompts (t : list Effect) : list (list PromptEntry) :=
  omap prompt_of t.

(** The typing indicator, as placeholder content and as suffix. *)
Definition indicator : string := "...".

(** The end-of-stream marker of the backend's event stream. *)
Definition done_marker : string := "[DONE]".

(** The model the server asks for. *)
Definition model_name : string := "@cf/meta/llama-2-7b-chat-int8".

(** What [JSON.parse(message)] returns, as far as [onMessage] looks at it:
    the value [null], whose [.type] cannot be read; an object of the
    [Message] union; or any other value, whose [.type] is neither ["add"]
    nor ["update"]. *)
Inductive Parsed : Type :=
  | ParsedNull
  | ParsedMessage (m : Message)
  | ParsedOther.

(** ** The server with the durable log *)

Module Durable.

(** A row of the table [messages (id TEXT PRIMARY KEY, user TEXT, role TEXT,
    content TEXT)]; the table is keyed by the primary key. *)
Record Row : Type := mkRow {
  row_user : string;
  row_role : Role;
  row_content : string
}.

(** The room: [this.messages] and the SQL table behind [this.ctx.storage]. *)
Record Chat : Type := mkChat {
  messages : list ChatMessage;
  storage : gmap string Row
}.

(** What the upsert statement does to the table: a new id gets a row of the
    first four bindings; on a conflict only [content] is set, to the fifth. *)
Definition sql_upsert (q : SqlUpsert) (table : gmap string Row) : gmap string Row :=
  match table !! bind_id q with
  | Some row =>
      <[bind_id q := {| row_user := row_user row;
                        row_role := row_role row;
                        row_content := bind_conflict_content q |}]> table
  | None =>
      <[bind_id q := {| row_user := bind_user q;
                        row_role := bind_role q;
                        row_content := bind_content q |}]> table
  end.

(** [this.ctx.storage.sql.exec(...)] *)
Definition sql_exec (q : SqlUpsert) : Handler Chat unit :=
  let* this := get in
  put {| messages := messages this; storage := sql_upsert q (storage this) |} >>
  emit (SqlExec q).

(** The in-memory half of [saveMessage]: replace every entry that has the
    message's id when [find] meets one, push otherwise. *)
Definition save_in_memory (message : ChatMessage) (log : list ChatMessage)
  : list ChatMessage :=
  match find (fun m => String.eqb (id m) (id message)) log with
  | Some existingMessage =>
      map (fun m => if String.eqb (id m) (id message) then message else m) log
  | None => log ++ [message]
  end.

Definition saveMessage (message : ChatMessage) : Handler Chat unit :=
  let* this := get in
  put {| messages := save_in_memory message (messages this);
         storage := storage this |} >>
  sql_exec {| bind_id := id message;
              bind_user := user message;
              bind_role := role message;
              bind_content := content message;
              bind_conflict_content := content message |}.

(** [this.broadcast(JSON.stringify(message), exclude)]; a call without
    [exclude] passes the empty list. *)
Definition broadcastMessage (message : Message) (exclude : list string)
  : Handler Chat unit :=
  emit (Broadcast (Stringify message) exclude).

Definition onConnect (connection : string) : Handler Chat unit :=
  let* this := get in
  emit (Send connection (Stringify (All (messages this)))).

Section Handlers.

(** [JSON.parse] on an inbound payload; it throws on text that is not
    JSON. *)
Variable JSON_parse : string -> Completion Parsed.

(** [JSON.parse(event.data).response], as the text [buffer +=] appends. *)
Variable JSON_parse_response : string -> Completion string.

(** The [for await] loop over the events of the backend stream; [events]
    holds [event.data] of each event, in arrival order. The loop hands back
    [buffer] as it stands when the stream ends. *)
Fixpoint for_await (aiMessage : ChatMessage) (events : list string) (buffer : string)
  : Handler Chat string :=
  match events with
  | [] => ret buffer
  | data :: rest =>
      if negb (String.eqb data done_marker) then
        let* response := lift (JSON_parse_response data) in
        let buffer := buffer +:+ response in
        broadcastMessage (Update (with_content aiMessage (buffer +:+ indicator))) [] >>
        for_await aiMessage rest buffer
      else
        saveMessage (with_content aiMessage buffer) >>
        broadcastMessage (Update (with_content aiMessage buffer)) [] >>
        for_await aiMessage rest buffer
  end.

(** The branch of [onMessage] for [parsed.type === "add"]. [nanoid8] is
    what [nanoid(8)] returns in this call and [eventStream] the events the
    backend stream delivers; the call [this.env.Ai.run] itself is taken to
    return its stream. *)
Definition on_add (parsed : ChatMessage) (nanoid8 : string) (eventStream : list string)
  : Handler Chat unit :=
  saveMessage parsed >>
  let aiMessage :=
    {| id := nanoid8; content := indicator; user := "AI"; role := RoleAssistant |} in
  broadcastMessage (Add aiMessage) [] >>
  let* this := get in
  emit (AiRun model_name (map to_prompt (messages this))) >>
  saveMessage aiMessage >>
  let* buffer := for_await aiMessage eventStream "" in
  ret tt.

Definition onMessage (connection : string) (message : string)
    (nanoid8 : string) (eventStream : list string) : Handler Chat unit :=
  emit (Broadcast (Raw message) []) >>
  let* parsed := lift (JSON_parse message) in
  match parsed with
  | ParsedNull => lift (Thrown TypeError)
  | ParsedMessage (Add m) => on_add m nanoid8 eventStream
  | ParsedMessage (Update m) => saveMessage m
  | ParsedMessage (All _) => ret tt
  | ParsedOther => ret tt
  end.

End Handlers.

End Durable.

(** ** The server with the log in memory only ([src/server/index.ts]) *)

Module InMemory.

Record Chat : Type := mkChat {
  messages : list ChatMessage
}.

(** [connection.send(JSON.stringify(message))] *)
Definition sendMessage (connection : string) (message : Message) : Handler Chat unit :=
  emit (Send connection (Stringify message)).

Definition broadcastMessage (message : Message) (exclude : list string)
  : Handler Chat unit :=
  emit (Broadcast (Stringify message) exclude).

Definition onConnect (connection : string) : Handler Chat unit :=
  let* this := get in
  sendMessage connection (All (messages this)).

(** [this.messages.findIndex((m) => m.id === i)]: [None] stands for -1. *)
Definition findIndex (i : string) (log : list ChatMessage) : option nat :=
  fst <$> list_find (fun m => id m = i) log.

(** [this.messages[index] = parsed]. At index -1 the assignment sets the
    property ["-1"] of the array and no element: length, iteration and
    [JSON.stringify] do not see it. *)
Definition assign_at (index : option nat) (parsed : ChatMessage) (log : list ChatMessage)
  : list ChatMessage :=
  match index with
  | Some i => <[i := parsed]> log
  | None => log
  end.

(** The [map] of the end-of-stream branch. *)
Definition finalize (i : string) (buffer : string) (log : list ChatMessage)
  : list ChatMessage :=
  map (fun m => if String.eqb (id m) i then with_content m buffer else m) log.

Section Handlers.

Variable JSON_parse : string -> Completion Parsed.
Variable JSON_parse_response : string -> Completion string.

Fixpoint for_await (aiMessage : ChatMessage) (events : list string) (buffer : string)
  : Handler Chat string :=
  match events with
  | [] => ret buffer
  | data :: rest =>
      if negb (String.eqb data done_marker) then
        let* response := lift (JSON_parse_response data) in
        let buffer := buffer +:+ response in
        broadcastMessage (Update (with_content aiMessage (buffer +:+ indicator))) [] >>
        for_await aiMessage rest buffer
      else
        let* this := get in
        put {| messages := finalize (id aiMessage) buffer (messages this) |} >>
        broadcastMessage (Update (with_content aiMessage buffer)) [] >>
        for_await aiMessage rest buffer
  end.

Definition on_add (parsed : ChatMessage) (nanoid8 : string) (eventStream : list string)
  : Handler Chat unit :=
  let* this := get in
  put {| messages := messages this ++ [parsed] |} >>
  let aiMessage :=
    {| id := nanoid8; content := indicator; user := "AI"; role := RoleAssistant |} in
  broadcastMessage (Add aiMessage) [] >>
  let* this := get in
  emit (AiRun model_name (map to_prompt (messages this))) >>
  let* this := get in
  put {| messages := messages this ++ [aiMessage] |} >>
  let* buffer := for_await aiMessage eventStream "" in
  ret tt.

Definition on_update (parsed : ChatMessage) : Handler Chat unit :=
  let* this := get in
  let index := findIndex (id parsed) (messages this) in
  put {| messages := assign_at index parsed (messages this) |}.

Definition onMessage (connection : string) (message : string)
    (nanoid8 : string) (eventStream : list string) : Handler Chat unit :=
  emit (Broadcast (Raw message) []) >>
  let* parsed := lift (JSON_parse message) in
  match parsed with
  | ParsedNull => lift (Thrown TypeError)
  | ParsedMessage (Add m) => on_add m nanoid8 eventStream
  | ParsedMessage (Update m) => on_update m
  | ParsedMessage (All _) => ret tt
  | ParsedOther => ret tt
  end.

End Handlers.

End InMemory.

(** ** Decoders for the examples

    The handlers take [JSON.parse] as a parameter. The closed examples
    below fix it on a few payloads. *)

Definition dquote : string := String "034"%char EmptyString.

(** The chunk [{"response":"<text>"}] of the backend stream. *)
Definition chunk (text : string) : string :=
  "{" +:+ dquote +:+ "response" +:+ dquote +:+ ":" +:+ dquote +:+ text +:+ dquote +:+ "}".

(** Printable ASCII without the quote and the backslash: text that a JSON
    string holds without an escape. *)
Definition plain_char (a : ascii) : bool :=
  let n := nat_of_ascii a in
  ((32 <=? n) && (n <? 127) && negb (n =? 34) && negb (n =? 92))%nat.

Definition plain (s : string) : bool :=
  forallb plain_char (list_ascii_of_string s).

(** [JSON.parse(data).response] on chunks: exact on [chunk text] for plain
    [text]. Every other text is rejected as if it were not JSON, so this
    decoder stands for [JSON.parse] on such chunks only. *)
Definition chunk_response (data : string) : Completion string :=
  let pre := "{" +:+ dquote +:+ "response" +:+ dquote +:+ ":" +:+ dquote in
  let post := dquote +:+ "}" in
  let text :=
    substring (String.length pre)
              (String.length data - String.length pre - String.length post) data in
  if String.eqb data (pre +:+ text +:+ post) && plain text
  then Returned text
  else Thrown SyntaxError.

(** [JSON.parse] on the inbound payloads of the examples: [null], and four
    JSON values that are no event of the union. Every other text is
    rejected as if it were not JSON, which is what [JSON.parse] does with
    [hello]; this decoder stands for [JSON.parse] on these payloads only. *)
Definition probe_parse (message : string) : Completion Parsed :=
  if String.eqb message "null" then Returned ParsedNull
  else if existsb (String.eqb message) ["{}"; "[]"; "42"; "true"] then Returned ParsedOther
  else Thrown SyntaxError.

(** ** Notions of the specification *)

(** A content with the typing-indicator suffix stripped, when it has one. *)
Definition strip_indicator (s : string) : string :=
  let n := String.length s in
  if (3 <=? n)%nat && String.eqb (substring (n - 3) 3 s) indicator
  then substring 0 (n - 3) s
  else s.

(** The contents of a list of update events, each stripped of the
    indicator, concatenated in order. *)
Definition replay (updates : list ChatMessage) : string :=
  String.concat "" (map (fun m => strip_indicator (content m)) updates).

(** [buffer] after each fragment of a stream has been appended in turn. *)
Fixpoint running (buffer : string) (fragments : list string) : list string :=
  match fragments with
  | [] => []
  | f :: rest => (buffer +:+ f) :: running (buffer +:+ f) rest
  end.

(** [buffer] after all fragments have been appended. *)
Definition appended (buffer : string) (fragments : list string) : string :=
  foldl String.append buffer fragments.

(** The update a continuation event makes the loop broadcast. *)
Definition partial_update (aiMessage : ChatMessage) (buffer : string) : Effect :=
  Broadcast (Stringify (Update (with_content aiMessage (buffer +:+ indicator)))) [].

(** The update the end-of-stream marker makes the loop broadcast. *)
Definition final_update (aiMessage : ChatMessage) (buffer : string) : Effect :=
  Broadcast (Stringify (Update (with_content aiMessage buffer))) [].

(** A handler that hands back a buffer, seen as one that hands back nothing. *)
Definition discard {A} (c : Completion A) : Completion unit :=
  match c with
  | Returned _ => Returned tt
  | Thrown e => Thrown e
  end.

(** The content the table holds for an id. *)
Definition stored_content (i : string) (st : Durable.Chat) : option string :=
  Durable.row_content <$> Durable.storage st !! i.

(** The upsert statement [saveMessage] issues for a message. *)
Definition upsert_of (m : ChatMessage) : SqlUpsert :=
  {| bind_id := id m; bind_user := user m; bind_role := role m;
     bind_content := content m; bind_conflict_content := content m |}.

(** The assistant's placeholder message for a generated id. *)
Definition placeholder (nanoid8 : string) : ChatMessage :=
  {| id := nanoid8; content := indicator; user := "AI"; role := RoleAssistant |}.

(** The room after a sequence of store upserts. *)
Definition save_all (ms : list ChatMessage) (st : Durable.Chat) : Durable.Chat :=
  foldl (fun s m => state_of (Durable.saveMessage m s)) st ms.





(** ** Sample data *)

Definition msg_hi : ChatMessage :=
  {| id := "m1"; content := "hi"; user := "alice"; role := RoleUser |}.

Definition msg_yo : ChatMessage :=
  {| id := "m2"; content := "yo"; user := "bob"; role := RoleUser |}.

Definition msg_hi_edited : ChatMessage :=
  {| id := "m1"; content := "hello"; user := "mallory"; role := RoleAssistant |}.

Definition empty_room : Durable.Chat :=
  {| Durable.messages := []; Durable.storage := ∅ |}.

Definition empty_memory_room : InMemory.Chat :=
  {| InMemory.messages := [] |}.



(** The JSON text of an event, as a client sends it. *)
Definition field (key value : string) : string :=
  dquote +:+ key +:+ dquote +:+ ":" +:+ dquote +:+ value +:+ dquote.

Definition role_text (r : Role) : string :=
  match r with
  | RoleUser => "user"
  | RoleAssistant => "assistant"
  end.

Definition event_text (tag : string) (m : ChatMessage) : string :=
  "{" +:+ field "type" tag +:+ "," +:+ field "id" (id m) +:+ ","
      +:+ field "content" (content m) +:+ "," +:+ field "user" (user m) +:+ ","
      +:+ field "role" (role_text (role m)) +:+ "}".

(** [JSON.parse] on two more payloads of the examples: the add event of
    [msg_hi] and the update event of [msg_hi_edited]; on every other text it
    is [probe_parse], so it stands for [JSON.parse] on the listed payloads
    only. *)
Definition sample_parse (message : string) : Completion Parsed :=
  if String.eqb message (event_text "add" msg_hi)
  then Returned (ParsedMessage (Add msg_hi))
  else if String.eqb message (event_text "update" msg_hi_edited)
  then Returned (ParsedMessage (Update msg_hi_edited))
  else probe_parse message.

(** ** Startup of the durable server

    [onStart] runs two statements: [CREATE TABLE IF NOT EXISTS messages
    (...)], which leaves an existing table as it is, and [SELECT * FROM
    messages], whose rows become [this.messages]. The table of the model
    always exists, and neither statement writes a row. The order in which
    the engine hands back the rows is the engine's: the rows are an
    argument of the handler, as [JSON.parse] is. *)

(** A row read back [as ChatMessage]. *)
Definition row_message (i : string) (row : Durable.Row) : ChatMessage :=
  {| id := i;
     content := Durable.row_content row;
     user := Durable.row_user row;
     role := Durable.row_role row |}.

(** The rows of the table, in the order the map lists them. *)
Definition select_rows (table : gmap string Durable.Row) : list ChatMessage :=
  (fun p => row_message (fst p) (snd p)) <$> map_to_list table.

(** [this.messages = this.ctx.storage.sql.exec(`SELECT * FROM messages`)
    .toArray() as ChatMessage[]]; [rows] is what the statement returns. *)
Definition onStart (rows : list ChatMessage) : Handler Durable.Chat unit :=
  let* this := get in
  put {| Durable.messages := rows; Durable.storage := Durable.storage this |}.

(** ** Notions for the properties of the handlers *)

(** The log and the table are in step: every entry of the log has a row
    with its content, and every row's id is in the log. *)
Definition in_step (st : Durable.Chat) : Prop :=
  (forall e, e ∈ Durable.messages st -> stored_content (id e) st = Some (content e)) /\
  (forall i, is_Some (Durable.storage st !! i) -> i ∈ map id (Durable.messages st)).

(** An effect that reaches every participant alike, or none. *)
Definition same_for_all (e : Effect) : Prop :=
  match e with
  | Send _ _ => False
  | Broadcast _ exclude => exclude = []
  | SqlExec _ => True
  | AiRun _ _ => True
  end.

Definition is_sql (e : Effect) : bool :=
  match e with
  | SqlExec _ => true
  | _ => false
  end.

(** The effects of a run without its SQL statements. *)
Definition without_sql (t : list Effect) : list Effect :=
  List.filter (fun e => negb (is_sql e)) t.

(** The ids a parsed payload adds to the log of the in-memory server. *)
Definition ids_added (p : Completion Parsed) (nanoid8 : string) : list string :=
  match p with
  | Returned (ParsedMessage (Add m)) => [id m; nanoid8]
  | _ => []
  end.

(** How many times the backend is called for a parsed payload. *)
Definition backend_calls (p : Completion Parsed) : nat :=
  match p with
  | Returned (ParsedMessage (Add _)) => 1
  | _ => 0
  end.

(** ** The message handler on payloads of any shape

    [onMessage] casts what [JSON.parse] returns to [Message] and looks at
    the [type] tag only. [Untyped] is the handler of both servers over
    objects whose fields hold any value, so that a payload with the tag of
    an event and the wrong shape has a run. The values, their strict
    equality [===] and the SQL engine behind [sql.exec] are the
    environment's. *)

Module Untyped.

(** The values a field of a parsed object can hold, with [===]; [str] is a
    string as a value. *)
Class JsValues : Type := {
  Value : Type;
  strict_eq : Value -> Value -> bool;
  str : string -> Value
}.

Section Objects.

Context `{JsValues}.

(** A parsed object, as far as the server reads it: a missing field reads
    as the value [undefined]. *)
Record Obj : Type := mkObj {
  id : Value;
  content : Value;
  user : Value;
  role : Value
}.

Inductive Message : Type :=
  | Add (m : Obj)
  | Update (m : Obj)
  | All (messages : list Obj).

Definition with_content (m : Obj) (c : Value) : Obj :=
  {| id := id m; content := c; user := user m; role := role m |}.

Inductive Wire : Type :=
  | Raw (bytes : string)
  | Stringify (m : Message).

(** The five bindings of the upsert statement. *)
Record SqlBindings : Type := mkSqlBindings {
  bind_id : Value;
  bind_user : Value;
  bind_role : Value;
  bind_content : Value;
  bind_conflict_content : Value
}.

Inductive Effect : Type :=
  | Send (connection : string) (data : Wire)
  | Broadcast (data : Wire) (exclude : list string)
  | SqlExec (q : SqlBindings)
  | AiRun (model : string) (prompt : list (Value * Value)).

Definition Handler (St A : Type) : Type :=
  St -> Completion A * St * list Effect.

Definition ret {St A} (a : A) : Handler St A :=
  fun s => (Returned a, s, []).

Definition bind {St A B} (c : Handler St A) (k : A -> Handler St B) : Handler St B :=
  fun s =>
    match c s with
    | (Returned a, s1, t1) =>
        match k a s1 with
        | (r, s2, t2) => (r, s2, t1 ++ t2)
        end
    | (Thrown e, s1, t1) => (Thrown e, s1, t1)
    end.

Definition get {St} : Handler St St :=
  fun s => (Returned s, s, []).

Definition put {St} (s' : St) : Handler St unit :=
  fun _ => (Returned tt, s', []).

Definition emit {St} (e : Effect) : Handler St unit :=
  fun s => (Returned tt, s, [e]).

Definition lift {St A} (c : Completion A) : Handler St A :=
  fun s => (c, s, []).

Definition completion_of {St A} (r : Completion A * St * list Effect) : Completion A :=
  fst (fst r).
Definition state_of {St A} (r : Completion A * St * list Effect) : St :=
  snd (fst r).
Definition effects_of {St A} (r : Completion A * St * list Effect) : list Effect :=
  snd r.

Local Notation "'let!' x ':=' c 'in' k" := (bind c (fun x => k))
  (at level 10, x name, c at level 100, k at level 200).
Local Notation "c '>>!' k" := (bind c (fun _ => k))
  (at level 90, right associativity).

(** The tag [parsed.type] of an event. *)
Inductive Tag : Type :=
  | TagAdd
  | TagUpdate.

(** What [JSON.parse(message)] returns: [null]; an object whose [type] is
    ["add"] or ["update"], with whatever its other fields hold; or any
    other value. *)
Inductive Parsed : Type :=
  | ParsedNull
  | ParsedTagged (tag : Tag) (parsed : Obj)
  | ParsedOther.

(** [aiMessage] *)
Definition placeholder (nanoid8 : string) : Obj :=
  {| id := str nanoid8; content := str indicator; user := str "AI";
     role := str "assistant" |}.

Definition to_prompt (m : Obj) : Value * Value := (content m, role m).

(** The bindings [saveMessage] passes for a message. *)
Definition bindings_of (m : Obj) : SqlBindings :=
  {| bind_id := id m; bind_user := user m; bind_role := role m;
     bind_content := content m; bind_conflict_content := content m |}.

(** *** [src/server/index.ts] *)

Definition memory_broadcastMessage (message : Message) (exclude : list string)
  : Handler (list Obj) unit :=
  emit (Broadcast (Stringify message) exclude).

Definition findIndex (i : Value) (log : list Obj) : option nat :=
  fst <$> list_find (fun m => strict_eq (id m) i = true) log.

Definition assign_at (index : option nat) (parsed : Obj) (log : list Obj) : list Obj :=
  match index with
  | Some i => <[i := parsed]> log
  | None => log
  end.

Definition finalize (i : Value) (buffer : string) (log : list Obj) : list Obj :=
  map (fun m => if strict_eq (id m) i then with_content m (str buffer) else m) log.

Section MemoryHandlers.

Variable JSON_parse : string -> Completion Parsed.
Variable JSON_parse_response : string -> Completion string.

Fixpoint memory_for_await (aiMessage : Obj) (events : list string) (buffer : string)
  : Handler (list Obj) string :=
  match events with
  | [] => ret buffer
  | data :: rest =>
      if negb (String.eqb data done_marker) then
        let! response := lift (JSON_parse_response data) in
        let buffer := buffer +:+ response in
        memory_broadcastMessage
          (Update (with_content aiMessage (str (buffer +:+ indicator)))) [] >>!
        memory_for_await aiMessage rest buffer
      else
        let! messages := get in
        put (finalize (id aiMessage) buffer messages) >>!
        memory_broadcastMessage (Update (with_content aiMessage (str buffer))) [] >>!
        memory_for_await aiMessage rest buffer
  end.

Definition memory_on_add (parsed : Obj) (nanoid8 : string) (eventStream : list string)
  : Handler (list Obj) unit :=
  let! messages := get in
  put (messages ++ [parsed]) >>!
  let aiMessage := placeholder nanoid8 in
  memory_broadcastMessage (Add aiMessage) [] >>!
  let! messages := get in
  emit (AiRun model_name (map to_prompt messages)) >>!
  let! messages := get in
  put (messages ++ [aiMessage]) >>!
  let! buffer := memory_for_await aiMessage eventStream "" in
  ret tt.

Definition memory_on_update (parsed : Obj) : Handler (list Obj) unit :=
  let! messages := get in
  let index := findIndex (id parsed) messages in
  put (assign_at index parsed messages).

Definition memory_onMessage (connection : string) (message : string)
    (nanoid8 : string) (eventStream : list string) : Handler (list Obj) unit :=
  emit (Broadcast (Raw message) []) >>!
  let! parsed := lift (JSON_parse message) in
  match parsed with
  | ParsedNull => lift (Thrown TypeError)
  | ParsedTagged TagAdd m => memory_on_add m nanoid8 eventStream
  | ParsedTagged TagUpdate m => memory_on_update m
  | ParsedOther => ret tt
  end.

End MemoryHandlers.

(** *** The server with the durable log *)

Section DurableHandlers.

(** The table behind [this.ctx.storage.sql], and what the engine does with
    the upsert statement and its bindings: the table it leaves, or the
    error it throws. *)
Variable Table : Type.
Variable exec_upsert : SqlBindings -> Table -> Completion Table.

Variable JSON_parse : string -> Completion Parsed.
Variable JSON_parse_response : string -> Completion string.

Record Chat : Type := mkChat {
  messages : list Obj;
  storage : Table
}.

Definition sql_exec (q : SqlBindings) : Handler Chat unit :=
  emit (SqlExec q) >>!
  let! this := get in
  let! table := lift (exec_upsert q (storage this)) in
  put {| messages := messages this; storage := table |}.

Definition save_in_memory (message : Obj) (log : list Obj) : list Obj :=
  match find (fun m => strict_eq (id m) (id message)) log with
  | Some existingMessage =>
      map (fun m => if strict_eq (id m) (id message) then message else m) log
  | None => log ++ [message]
  end.

Definition saveMessage (message : Obj) : Handler Chat unit :=
  let! this := get in
  put {| messages := save_in_memory message (messages this);
         storage := storage this |} >>!
  sql_exec (bindings_of message).

Definition broadcastMessage (message : Message) (exclude : list string)
  : Handler Chat unit :=
  emit (Broadcast (Stringify message) exclude).

Fixpoint for_await (aiMessage : Obj) (events : list string) (buffer : string)
  : Handler Chat string :=
  match events with
  | [] => ret buffer
  | data :: rest =>
      if negb (String.eqb data done_marker) then
        let! response := lift (JSON_parse_response data) in
        let buffer := buffer +:+ response in
        broadcastMessage (Update (with_content aiMessage (str (buffer +:+ indicator)))) [] >>!
        for_await aiMessage rest buffer
      else
        saveMessage (with_content aiMessage (str buffer)) >>!
        broadcastMessage (Update (with_content aiMessage (str buffer))) [] >>!
        for_await aiMessage rest buffer
  end.

Definition on_add (parsed : Obj) (nanoid8 : string) (eventStream : list string)
  : Handler Chat unit :=
  saveMessage parsed >>!
  let aiMessage := placeholder nanoid8 in
  broadcastMessage (Add aiMessage) [] >>!
  let! this := get in
  emit (AiRun model_name (map to_prompt (messages this))) >>!
  saveMessage aiMessage >>!
  let! buffer := for_await aiMessage eventStream "" in
  ret tt.

Definition onMessage (connection : string) (message : string)
    (nanoid8 : string) (eventStream : list string) : Handler Chat unit :=
  emit (Broadcast (Raw message) []) >>!
  let! parsed := lift (JSON_parse message) in
  match parsed with
  | ParsedNull => lift (Thrown TypeError)
  | ParsedTagged TagAdd m => on_add m nanoid8 eventStream
  | ParsedTagged TagUpdate m => saveMessage m
  | ParsedOther => ret tt
  end.

End DurableHandlers.

End Objects.

End Untyped.

(** *** Events of the expected shape among the untyped objects

    A [ChatMessage] is the object whose four fields are strings; a role is
    its text. *)

Section Embedding.

Context `{Untyped.JsValues}.

Definition embed_obj (m : ChatMessage) : Untyped.Obj :=
  {| Untyped.id := Untyped.str (id m);
     Untyped.content := Untyped.str (content m);
     Untyped.user := Untyped.str (user m);
     Untyped.role := Untyped.str (role_text (role m)) |}.

Definition embed_message (m : Message) : Untyped.Message :=
  match m with
  | Add m => Untyped.Add (embed_obj m)
  | Update m => Untyped.Update (embed_obj m)
  | All ms => Untyped.All (map embed_obj ms)
  end.

Definition embed_wire (d : Wire) : Untyped.Wire :=
  match d with
  | Raw bytes => Untyped.Raw bytes
  | Stringify m => Untyped.Stringify (embed_message m)
  end.

Definition embed_prompt (p : PromptEntry) : Untyped.Value * Untyped.Value :=
  (Untyped.str (fst p), Untyped.str (role_text (snd p))).

Definition embed_bindings (q : SqlUpsert) : Untyped.SqlBindings :=
  {| Untyped.bind_id := Untyped.str (bind_id q);
     Untyped.bind_user := Untyped.str (bind_user q);
     Untyped.bind_role := Untyped.str (role_text (bind_role q));
     Untyped.bind_content := Untyped.str (bind_content q);
     Untyped.bind_conflict_content := Untyped.str (bind_conflict_content q) |}.

Definition embed_effect (e : Effect) : Untyped.Effect :=
  match e with
  | Send c d => Untyped.Send c (embed_wire d)
  | Broadcast d exclude => Untyped.Broadcast (embed_wire d) exclude
  | SqlExec q => Untyped.SqlExec (embed_bindings q)
  | AiRun model prompt => Untyped.AiRun model (map embed_prompt prompt)
  end.

(** What the typed parser's result is among the untyped ones: a snapshot
    event carries neither tag of an inbound event. *)
Definition embed_parsed (p : Completion Parsed) : Completion Untyped.Parsed :=
  match p with
  | Thrown e => Thrown e
  | Returned ParsedNull => Returned Untyped.ParsedNull
  | Returned (ParsedMessage (Add m)) =>
      Returned (Untyped.ParsedTagged Untyped.TagAdd (embed_obj m))
  | Returned (ParsedMessage (Update m)) =>
      Returned (Untyped.ParsedTagged Untyped.TagUpdate (embed_obj m))
  | Returned (ParsedMessage (All _)) => Returned Untyped.ParsedOther
  | Returned ParsedOther => Returned Untyped.ParsedOther
  end.

(** A run of the typed in-memory server, seen among the untyped runs. *)
Definition embed_memory_run {A} (r : Completion A * InMemory.Chat * list Effect)
  : Completion A * list Untyped.Obj * list Untyped.Effect :=
  (completion_of r, map embed_obj (InMemory.messages (state_of r)),
   map embed_effect (effects_of r)).

(** A room of the typed durable server, and a run of it, seen among the
    untyped ones; [abs] is how the engine holds a table. *)
Definition embed_chat {Table} (abs : gmap string Durable.Row -> Table)
    (st : Durable.Chat) : Untyped.Chat Table :=
  {| Untyped.messages := map embed_obj (Durable.messages st);
     Untyped.storage := abs (Durable.storage st) |}.

Definition embed_run {Table A} (abs : gmap string Durable.Row -> Table)
    (r : Completion A * Durable.Chat * list Effect)
  : Completion A * Untyped.Chat Table * list Untyped.Effect :=
  (completion_of r, embed_chat abs (state_of r), map embed_effect (effects_of r)).

End Embedding.

(** A fragment of the values for the examples: [undefined] and the
    strings, with [===] on them. *)
Definition sample_values : Untyped.JsValues :=
  {| Untyped.Value := option string;
     Untyped.strict_eq := fun a b =>
       match a, b with
       | Some x, Some y => String.eqb x y
       | None, None => true
       | _, _ => false
       end;
     Untyped.str := Some |}.

Definition js_undefined : @Untyped.Value sample_values := @None string.

(** The object [{"type":"add"}] read as an event: every field the server
    reads is [undefined]. *)
Definition bare_add : @Untyped.Obj sample_values :=
  @Untyped.mkObj sample_values js_undefined js_undefined js_undefined js_undefined.

Definition bare_add_text : string := "{" +:+ field "type" "add" +:+ "}".

(** [JSON.parse] on the payloads of the untyped examples: the bare add
    event, [null], and text that is not JSON; it stands for [JSON.parse] on
    these payloads only. *)
Definition untyped_probe_parse (message : string)
  : Completion (@Untyped.Parsed sample_values) :=
  if String.eqb message bare_add_text
  then Returned (Untyped.ParsedTagged Untyped.TagAdd bare_add)
  else if String.eqb message "null" then Returned Untyped.ParsedNull
  else if String.eqb message "{}" then Returned Untyped.ParsedOther
  else Thrown SyntaxError.

(** A stand-in for the SQL engine in the examples: it takes string
    bindings, with the upsert's effect on a table of string rows, and throws
    on a binding that is [undefined]. *)
Definition sample_table : Type := gmap string (string * string * string).

Definition sample_exec (q : @Untyped.SqlBindings sample_values) (table : sample_table)
  : Completion sample_table :=
  match Untyped.bind_id q, Untyped.bind_user q, Untyped.bind_role q,
        Untyped.bind_content q, Untyped.bind_conflict_content q with
  | Some i, Some u, Some r, Some c, Some c' =>
      Returned match table !! i with
               | Some (u0, r0, _) => <[i := (u0, r0, c')]> table
               | None => <[i := (u, r, c)]> table
               end
  | _, _, _, _, _ => Thrown TypeError
  end.

(** How the stand-in engine holds a table of typed rows. *)
Definition sample_abs (table : gmap string Durable.Row) : sample_table :=
  (fun row => (Durable.row_user row, role_text (Durable.row_role row),
               Durable.row_content row)) <$> table.

Definition untyped_empty_room : @Untyped.Chat sample_values sample_table :=
  @Untyped.mkChat sample_values sample_table [] ∅.

(** What the untyped handler completes with on a payload that carries no
    event tag. *)
Definition untagged_completion `{Untyped.JsValues}
    (p : Completion Untyped.Parsed) : Completion unit :=
  match p with
  | Thrown e => Thrown e
  | Returned Untyped.ParsedNull => Thrown TypeError
  | Returned _ => Returned tt
  end.

(** ** The handler monad *)

Lemma bind_assoc {St A B C} (c : Handler St A) (k : A -> Handler St B)
    (h : B -> Handler St C) (s : St) :
  bind (bind c k) h s = bind c (fun a => bind (k a) h) s.
Proof.
  unfold bind. destruct (c s) as [[[a|e] s1] t1]; [|reflexivity].
  destruct (k a s1) as [[[b|e] s2] t2]; [|reflexivity].
  destruct (h b s2) as [[r s3] t3]. by rewrite (assoc_L (++)).
Qed.

Lemma bind_ext {St A B} (c : Handler St A) (k k' : A -> Handler St B) (s : St) :
  (forall a s', k a s' = k' a s') -> bind c k s = bind c k' s.
Proof.
  intros E. unfold bind. destruct (c s) as [[[a|e] s1] t1]; [|reflexivity].
  by rewrite E.
Qed.

Lemma bind_run {St A B} (c : Handler St A) (k : A -> Handler St B) s a s1 t1 :
  c s = (Returned a, s1, t1) ->
  bind c k s = (completion_of (k a s1), state_of (k a s1), t1 ++ effects_of (k a s1)).
Proof.
  intros E. unfold bind. rewrite E. by destruct (k a s1) as [[r s2] t2].
Qed.

Lemma bind_thrown {St A B} (c : Handler St A) (k : A -> Handler St B) s e s1 t1 :
  c s = (Thrown e, s1, t1) -> bind c k s = (Thrown e, s1, t1).
Proof. intros E. unfold bind. by rewrite E. Qed.

Lemma effects_of_tuple {St A} (c : Completion A) (s : St) (t : list Effect) :
  effects_of (c, s, t) = t.
Proof. reflexivity. Qed.

Lemma state_of_tuple {St A} (c : Completion A) (s : St) (t : list Effect) :
  state_of (c, s, t) = s.
Proof. reflexivity. Qed.

Lemma prompts_app (t1 t2 : list Effect) : prompts (t1 ++ t2) = prompts t1 ++ prompts t2.
Proof. apply omap_app. Qed.

Lemma ret_bind {St A B} (a : A) (k : A -> Handler St B) (s : St) :
  bind (ret a) k s = k a s.
Proof. unfold bind, ret. by destruct (k a s) as [[r s2] t2]. Qed.

(** ** The store: [saveMessage] *)

Lemma find_id_None (i : string) (log : list ChatMessage) :
  find (fun m => String.eqb (id m) i) log = None <-> i ∉ map id log.
Proof.
  induction log as [|e log IH]; simpl.
  - split; [intros _; apply not_elem_of_nil | done].
  - rewrite not_elem_of_cons. destruct (String.eqb_spec (id e) i) as [E|E].
    + split; [done | intros [H _]; congruence].
    + rewrite IH. split; [intros H; split; [congruence | done] | intros [_ H]; done].
Qed.

Lemma find_id_Some (i : string) (log : list ChatMessage) :
  i ∈ map id log -> exists e, find (fun m => String.eqb (id m) i) log = Some e.
Proof.
  intros H. destruct (find _ log) as [e|] eqn:E; [by exists e|].
  apply find_id_None in E. done.
Qed.

Lemma save_in_memory_present (message : ChatMessage) (log : list ChatMessage) :
  id message ∈ map id log ->
  Durable.save_in_memory message log =
    map (fun m => if String.eqb (id m) (id message) then message else m) log.
Proof.
  intros H. unfold Durable.save_in_memory.
  by destruct (find_id_Some _ _ H) as [e ->].
Qed.

Lemma save_in_memory_absent (message : ChatMessage) (log : list ChatMessage) :
  id message ∉ map id log ->
  Durable.save_in_memory message log = log ++ [message].
Proof.
  intros H. unfold Durable.save_in_memory.
  by apply find_id_None in H as ->.
Qed.

Lemma replace_absent (message : ChatMessage) (log : list ChatMessage) :
  id message ∉ map id log ->
  map (fun m => if String.eqb (id m) (id message) then message else m) log = log.
Proof.
  induction log as [|e log IH]; simpl; [done|].
  rewrite not_elem_of_cons. intros [Hne Hnot].
  destruct (String.eqb_spec (id e) (id message)); [congruence|].
  by rewrite IH.
Qed.

Lemma replace_ids (message : ChatMessage) (log : list ChatMessage) :
  map id (map (fun m => if String.eqb (id m) (id message) then message else m) log)
  = map id log.
Proof.
  induction log as [|e log IH]; simpl; [done|].
  rewrite IH. by destruct (String.eqb_spec (id e) (id message)) as [->|].
Qed.


Lemma save_in_memory_ids (message : ChatMessage) (log : list ChatMessage) :
  id message ∈ map id (Durable.save_in_memory message log).
Proof.
  destruct (decide (id message ∈ map id log)) as [H|H].
  - rewrite save_in_memory_present by done. by rewrite replace_ids.
  - rewrite save_in_memory_absent by done. rewrite map_app. set_solver.
Qed.



Lemma saveMessage_run (message : ChatMessage) (st : Durable.Chat) :
  Durable.saveMessage message st =
    (Returned tt,
     {| Durable.messages := Durable.save_in_memory message (Durable.messages st);
        Durable.storage := Durable.sql_upsert (upsert_of message) (Durable.storage st) |},
     [SqlExec (upsert_of message)]).
Proof. reflexivity. Qed.

Lemma save_in_memory_entries (message : ChatMessage) (log : list ChatMessage) :
  message ∈ Durable.save_in_memory message log /\
  forall e, e ∈ Durable.save_in_memory message log -> id e = id message -> e = message.
Proof.
  destruct (decide (id message ∈ map id log)) as [H|H].
  - rewrite save_in_memory_present by done. split.
    + apply list_elem_of_fmap in H as (e & He & Hel).
      apply list_elem_of_fmap. exists e. split; [|done].
      rewrite <- He. by rewrite String.eqb_refl.
    + intros e He Hid. apply list_elem_of_fmap in He as (e0 & -> & _).
      destruct (String.eqb_spec (id e0) (id message)) as [E|E]; [done|].
      simpl in Hid. congruence.
  - rewrite save_in_memory_absent by done. split; [set_solver|].
    intros e He Hid. apply elem_of_app in He as [He|He].
    + exfalso. apply H. rewrite <- Hid. apply list_elem_of_fmap. by exists e.
    + by apply list_elem_of_singleton in He.
Qed.

Lemma sql_upsert_content (m : ChatMessage) (table : gmap string Durable.Row) :
  Durable.row_content <$> Durable.sql_upsert (upsert_of m) table !! id m
  = Some (content m).
Proof.
  unfold Durable.sql_upsert; cbn [bind_id upsert_of].
  destruct (table !! id m) as [row|]; by rewrite lookup_insert_eq.
Qed.

Lemma stored_content_saved (m : ChatMessage) (st : Durable.Chat) :
  stored_content (id m) (state_of (Durable.saveMessage m st)) = Some (content m).
Proof.
  rewrite saveMessage_run. unfold stored_content, state_of; cbn [fst snd Durable.storage].
  apply sql_upsert_content.
Qed.

Lemma finalize_entries (i buffer : string) (log : list ChatMessage) :
  map id (InMemory.finalize i buffer log) = map id log /\
  forall e, e ∈ InMemory.finalize i buffer log -> id e = i -> content e = buffer.
Proof.
  unfold InMemory.finalize. split.
  - induction log as [|e log IH]; simpl; [done|]. rewrite IH.
    by destruct (String.eqb (id e) i).
  - intros e He Hid. apply list_elem_of_fmap in He as (e0 & -> & _).
    destruct (String.eqb_spec (id e0) i) as [E|E]; [done|]. congruence.
Qed.


Lemma on_update_run (parsed : ChatMessage) (st : InMemory.Chat) :
  InMemory.on_update parsed st =
    (Returned tt,
     {| InMemory.messages :=
          InMemory.assign_at (InMemory.findIndex (id parsed) (InMemory.messages st))
                             parsed (InMemory.messages st) |},
     []).
Proof. reflexivity. Qed.

Lemma findIndex_present (i : string) (log : list ChatMessage) :
  i ∈ map id log ->
  exists n e, InMemory.findIndex i log = Some n /\ log !! n = Some e /\ id e = i /\
    forall j y, log !! j = Some y -> j < n -> id y <> i.
Proof.
  intros Hin. unfold InMemory.findIndex.
  destruct (list_find (fun m => id m = i) log) as [[n e]|] eqn:E.
  - apply list_find_Some in E as (Hn & He & Hfirst). exists n, e. simpl. eauto.
  - apply list_find_None in E. apply list_elem_of_fmap in Hin as (e & -> & He).
    rewrite Forall_forall in E. by destruct (E e He).
Qed.

Lemma findIndex_absent (i : string) (log : list ChatMessage) :
  i ∉ map id log -> InMemory.findIndex i log = None.
Proof.
  intros Hnot. unfold InMemory.findIndex.
  destruct (list_find (fun m => id m = i) log) as [[n e]|] eqn:E; [|done].
  apply list_find_Some in E as (Hn & He & _). exfalso. apply Hnot.
  apply list_elem_of_fmap. exists e. split; [done|]. by eapply list_elem_of_lookup_2.
Qed.

Lemma insert_same_id (log : list ChatMessage) (n : nat) (e message : ChatMessage) :
  log !! n = Some e -> id e = id message ->
  map id (<[n := message]> log) = map id log.
Proof.
  intros Hn He. rewrite list_fmap_insert. rewrite <- He.
  apply list_insert_id. by rewrite list_lookup_fmap, Hn.
Qed.

(** C6: an upsert for an id already in the log puts the message at the
    position of the entry with that id, so the ids keep their order and
    every entry with another id stays as it was; an upsert for an id that
    is not in the log appends one entry (durable server) or changes nothing
    (in-memory server), so it never makes two entries share an id. *)
Theorem upsert_keeps_position_and_ids (message : ChatMessage)
    (st : Durable.Chat) (mst : InMemory.Chat) :
  let log := Durable.messages st in
  let log' := Durable.messages (state_of (Durable.saveMessage message st)) in
  let mlog := InMemory.messages mst in
  let mlog' := InMemory.messages (state_of (InMemory.on_update message mst)) in
  (id message ∈ map id log ->
     map id log' = map id log /\
     forall i e, log !! i = Some e ->
       log' !! i = Some (if String.eqb (id e) (id message) then message else e)) /\
  (id message ∉ map id log ->
     log' = log ++ [message] /\ (NoDup (map id log) -> NoDup (map id log'))) /\
  (id message ∈ map id mlog ->
     map id mlog' = map id mlog /\
     exists i e, mlog !! i = Some e /\ id e = id message /\
       mlog' = <[i := message]> mlog) /\
  (id message ∉ map id mlog -> mlog' = mlog).
Proof.
  cbv zeta. rewrite saveMessage_run, on_update_run. unfold state_of; cbn [fst snd].
  cbn [Durable.messages InMemory.messages]. split_and!.
  - intros Hin. rewrite save_in_memory_present by done. split; [apply replace_ids|].
    intros i e Hi. by rewrite list_lookup_fmap, Hi.
  - intros Hnot. rewrite save_in_memory_absent by done. split; [done|].
    intros Hnd. rewrite map_app; simpl. apply NoDup_app. split_and!; [done| |apply NoDup_singleton].
    intros x Hx. rewrite list_elem_of_singleton. by intros ->.
  - intros Hin. destruct (findIndex_present _ _ Hin) as (n & e & -> & Hn & He & _).
    simpl. split; [by eapply insert_same_id | by exists n, e].
  - intros Hnot. by rewrite findIndex_absent.
Qed.

Lemma upsert_keeps_position_and_ids_witness :
  let before := {| Durable.messages := [msg_hi; msg_yo]; Durable.storage := ∅ |} in
  let mbefore := {| InMemory.messages := [msg_hi; msg_yo] |} in
  map id (Durable.messages (state_of (Durable.saveMessage msg_hi_edited before)))
    = ["m1"; "m2"] /\
  Durable.messages (state_of (Durable.saveMessage msg_yo empty_room)) = [msg_yo] /\
  map id (InMemory.messages (state_of (InMemory.on_update msg_hi_edited mbefore)))
    = ["m1"; "m2"] /\
  InMemory.messages (state_of (InMemory.on_update msg_yo empty_memory_room)) = [].
Proof.
  cbv zeta.
  pose proof (upsert_keeps_position_and_ids msg_hi_edited
    {| Durable.messages := [msg_hi; msg_yo]; Durable.storage := ∅ |}
    {| InMemory.messages := [msg_hi; msg_yo] |}) as (Hd & _ & Hm & _).
  pose proof (upsert_keeps_position_and_ids msg_yo empty_room empty_memory_room)
    as (_ & Hd' & _ & Hm').
  split_and!.
  - apply Hd. simpl. left.
  - apply Hd'. simpl. apply not_elem_of_nil.
  - apply Hm. simpl. left.
  - apply Hm'. simpl. apply not_elem_of_nil.
Defined.

Lemma sql_upsert_keeps_user_role (q : SqlUpsert) (table : gmap string Durable.Row)
    (i : string) (row : Durable.Row) :
  table !! i = Some row ->
  exists c, Durable.sql_upsert q table !! i =
    Some {| Durable.row_user := Durable.row_user row;
            Durable.row_role := Durable.row_role row;
            Durable.row_content := c |}.
Proof.
  intros Hrow. unfold Durable.sql_upsert.
  destruct (decide (bind_id q = i)) as [->|Hne].
  - rewrite Hrow. rewrite lookup_insert_eq. by eexists.
  - destruct (table !! bind_id q); rewrite lookup_insert_ne by done;
      rewrite Hrow; exists (Durable.row_content row); by destruct row.
Qed.

Lemma save_all_keeps_user_role (later : list ChatMessage) (st : Durable.Chat)
    (i : string) (row : Durable.Row) :
  Durable.storage st !! i = Some row ->
  exists c, Durable.storage (save_all later st) !! i =
    Some {| Durable.row_user := Durable.row_user row;
            Durable.row_role := Durable.row_role row;
            Durable.row_content := c |}.
Proof.
  revert st row. induction later as [|m later IH]; intros st row Hrow.
  - exists (Durable.row_content row). simpl. rewrite Hrow. by destruct row.
  - unfold save_all in *. simpl foldl. rewrite saveMessage_run, state_of_tuple.
    destruct (sql_upsert_keeps_user_role (upsert_of m) (Durable.storage st) i row Hrow)
      as (c & Hc).
    destruct (IH {| Durable.messages := Durable.save_in_memory m (Durable.messages st);
                    Durable.storage := Durable.sql_upsert (upsert_of m) (Durable.storage st) |}
                 _ Hc) as (c' & Hc').
    exists c'. exact Hc'.
Qed.

(** The first write of an id makes its row from the message's fields. *)
Lemma first_write_row (message : ChatMessage) (st : Durable.Chat) :
  Durable.storage st !! id message = None ->
  Durable.storage (state_of (Durable.saveMessage message st)) !! id message =
    Some {| Durable.row_user := user message;
            Durable.row_role := role message;
            Durable.row_content := content message |}.
Proof.
  intros Hnone. rewrite saveMessage_run, state_of_tuple. cbn [Durable.storage].
  unfold Durable.sql_upsert. cbn [bind_id upsert_of]. rewrite Hnone.
  by rewrite lookup_insert_eq.
Qed.

(** C10: when [saveMessage] is given a message whose id is already in the
    table, the durable write sets only the content column: the row keeps
    the user and the role it had, every other row is untouched, and no
    later upsert changes that user and role either; when the id is in the
    log too, the message as given, all fields, takes the place of the
    entry in memory. *)
Theorem saveMessage_conflict_sets_content_only (message : ChatMessage)
    (st : Durable.Chat) (row : Durable.Row) :
  Durable.storage st !! id message = Some row ->
  let st' := state_of (Durable.saveMessage message st) in
  Durable.storage st' !! id message =
    Some {| Durable.row_user := Durable.row_user row;
            Durable.row_role := Durable.row_role row;
            Durable.row_content := content message |} /\
  (forall i, i <> id message -> Durable.storage st' !! i = Durable.storage st !! i) /\
  (forall later : list ChatMessage,
     exists c, Durable.storage (save_all later st') !! id message =
       Some {| Durable.row_user := Durable.row_user row;
               Durable.row_role := Durable.row_role row;
               Durable.row_content := c |}) /\
  (id message ∈ map id (Durable.messages st) ->
     map id (Durable.messages st') = map id (Durable.messages st) /\
     message ∈ Durable.messages st' /\
     forall e, e ∈ Durable.messages st' -> id e = id message -> e = message).
Proof.
  intros Hrow. cbv zeta.
  assert (Durable.storage (state_of (Durable.saveMessage message st)) !! id message =
    Some {| Durable.row_user := Durable.row_user row;
            Durable.row_role := Durable.row_role row;
            Durable.row_content := content message |}) as Hnew.
  { rewrite saveMessage_run, state_of_tuple. cbn [Durable.storage].
    unfold Durable.sql_upsert. cbn [bind_id upsert_of]. rewrite Hrow.
    by rewrite lookup_insert_eq. }
  split_and!.
  - exact Hnew.
  - intros i Hi. rewrite saveMessage_run, state_of_tuple. cbn [Durable.storage].
    unfold Durable.sql_upsert. cbn [bind_id upsert_of]. rewrite Hrow.
    by rewrite lookup_insert_ne.
  - intros later. apply (save_all_keeps_user_role later _ _ _ Hnew).
  - intros Hin. rewrite saveMessage_run, state_of_tuple. cbn [Durable.messages].
    split_and!.
    + rewrite save_in_memory_present by done. apply replace_ids.
    + apply save_in_memory_entries.
    + apply save_in_memory_entries.
Qed.

Lemma saveMessage_conflict_sets_content_only_witness :
  let first := state_of (Durable.saveMessage msg_hi empty_room) in
  let st' := state_of (Durable.saveMessage msg_hi_edited first) in
  Durable.storage st' !! "m1" =
    Some {| Durable.row_user := "alice"; Durable.row_role := RoleUser;
            Durable.row_content := "hello" |} /\
  msg_hi_edited ∈ Durable.messages st' /\
  (forall e, e ∈ Durable.messages st' -> id e = "m1" -> e = msg_hi_edited).
Proof.
  cbv zeta.
  pose proof (saveMessage_conflict_sets_content_only msg_hi_edited
           (state_of (Durable.saveMessage msg_hi empty_room))
           {| Durable.row_user := "alice"; Durable.row_role := RoleUser;
              Durable.row_content := "hi" |} eq_refl) as H.
  cbv zeta in H. destruct H as (Hrow & _ & _ & Hlog).
  destruct Hlog as (_ & Hin & Hall).
  - simpl. left.
  - split_and!; [exact Hrow | exact Hin | exact Hall].
Defined.

(** ** The streaming loop *)

Section Streaming.

Variable JSON_parse_response : string -> Completion string.

Lemma for_await_app (aiMessage : ChatMessage) (e1 e2 : list string)
    (buffer : string) (st : Durable.Chat) :
  Durable.for_await JSON_parse_response aiMessage (e1 ++ e2) buffer st =
  bind (Durable.for_await JSON_parse_response aiMessage e1 buffer)
       (fun b => Durable.for_await JSON_parse_response aiMessage e2 b) st.
Proof.
  revert buffer st. induction e1 as [|d e1 IH]; intros buffer st.
  - simpl. by rewrite ret_bind.
  - simpl. destruct (negb (String.eqb d done_marker)).
    + rewrite bind_assoc. apply bind_ext. intros response s1.
      rewrite bind_assoc. apply bind_ext. intros _ s2. apply IH.
    + rewrite bind_assoc. apply bind_ext. intros _ s1.
      rewrite bind_assoc. apply bind_ext. intros _ s2. apply IH.
Qed.

Lemma memory_for_await_app (aiMessage : ChatMessage) (e1 e2 : list string)
    (buffer : string) (st : InMemory.Chat) :
  InMemory.for_await JSON_parse_response aiMessage (e1 ++ e2) buffer st =
  bind (InMemory.for_await JSON_parse_response aiMessage e1 buffer)
       (fun b => InMemory.for_await JSON_parse_response aiMessage e2 b) st.
Proof.
  revert buffer st. induction e1 as [|d e1 IH]; intros buffer st.
  - simpl. by rewrite ret_bind.
  - simpl. destruct (negb (String.eqb d done_marker)).
    + rewrite bind_assoc. apply bind_ext. intros response s1.
      rewrite bind_assoc. apply bind_ext. intros _ s2. apply IH.
    + rewrite bind_assoc. apply bind_ext. intros this s1.
      rewrite bind_assoc. apply bind_ext. intros _ s2.
      rewrite bind_assoc. apply bind_ext. intros _ s3. apply IH.
Qed.

Lemma for_await_done (aiMessage : ChatMessage) (buffer : string) (st : Durable.Chat) :
  Durable.for_await JSON_parse_response aiMessage [done_marker] buffer st =
    (Returned buffer,
     state_of (Durable.saveMessage (with_content aiMessage buffer) st),
     [SqlExec (upsert_of (with_content aiMessage buffer));
      Broadcast (Stringify (Update (with_content aiMessage buffer))) []]).
Proof. reflexivity. Qed.

Lemma memory_for_await_done (aiMessage : ChatMessage) (buffer : string)
    (st : InMemory.Chat) :
  InMemory.for_await JSON_parse_response aiMessage [done_marker] buffer st =
    (Returned buffer,
     {| InMemory.messages :=
          InMemory.finalize (id aiMessage) buffer (InMemory.messages st) |},
     [Broadcast (Stringify (Update (with_content aiMessage buffer))) []]).
Proof. reflexivity. Qed.

Lemma for_await_chunks (aiMessage : ChatMessage) (chunks fragments : list string)
    (buffer : string) (st : Durable.Chat) :
  Forall (fun d => d <> done_marker) chunks ->
  Forall2 (fun d f => JSON_parse_response d = Returned f) chunks fragments ->
  Durable.for_await JSON_parse_response aiMessage chunks buffer st =
    (Returned (appended buffer fragments), st,
     map (partial_update aiMessage) (running buffer fragments)).
Proof.
  intros Hnd Hdec. revert buffer. induction Hdec as [|d f chunks fragments Hd Hrest IH];
    intros buffer; [reflexivity|].
  apply Forall_cons in Hnd as [Hne Hnd]. simpl.
  destruct (String.eqb_spec d done_marker) as [E|_]; [done|]. simpl.
  unfold bind at 1. unfold lift. rewrite Hd.
  unfold bind at 1. unfold Durable.broadcastMessage, emit.
  rewrite (IH Hnd). reflexivity.
Qed.

Lemma memory_for_await_chunks (aiMessage : ChatMessage) (chunks fragments : list string)
    (buffer : string) (st : InMemory.Chat) :
  Forall (fun d => d <> done_marker) chunks ->
  Forall2 (fun d f => JSON_parse_response d = Returned f) chunks fragments ->
  InMemory.for_await JSON_parse_response aiMessage chunks buffer st =
    (Returned (appended buffer fragments), st,
     map (partial_update aiMessage) (running buffer fragments)).
Proof.
  intros Hnd Hdec. revert buffer. induction Hdec as [|d f chunks fragments Hd Hrest IH];
    intros buffer; [reflexivity|].
  apply Forall_cons in Hnd as [Hne Hnd]. simpl.
  destruct (String.eqb_spec d done_marker) as [E|_]; [done|]. simpl.
  unfold bind at 1. unfold lift. rewrite Hd.
  unfold bind at 1. unfold InMemory.broadcastMessage, emit.
  rewrite (IH Hnd). reflexivity.
Qed.

End Streaming.

Section AddBranch.

Variable JSON_parse_response : string -> Completion string.

Lemma on_add_run (parsed : ChatMessage) (nanoid8 : string) (eventStream : list string)
    (st : Durable.Chat) :
  let ai := placeholder nanoid8 in
  let st1 := state_of (Durable.saveMessage parsed st) in
  let st2 := state_of (Durable.saveMessage ai st1) in
  let loop := Durable.for_await JSON_parse_response ai eventStream "" st2 in
  Durable.on_add JSON_parse_response parsed nanoid8 eventStream st =
    (discard (completion_of loop), state_of loop,
     [SqlExec (upsert_of parsed);
      Broadcast (Stringify (Add ai)) [];
      AiRun model_name (map to_prompt (Durable.messages st1));
      SqlExec (upsert_of ai)] ++ effects_of loop).
Proof.
  cbv zeta. unfold Durable.on_add. fold (placeholder nanoid8).
  rewrite !saveMessage_run. unfold state_of at 2 3 4; cbn [fst snd].
  unfold bind at 1. rewrite saveMessage_run.
  unfold bind at 1. unfold Durable.broadcastMessage at 1, emit at 1.
  unfold bind at 1. unfold get at 1.
  unfold bind at 1. unfold emit at 1.
  unfold bind at 1. rewrite saveMessage_run.
  unfold bind at 1. cbn [Durable.messages Durable.storage].
  destruct (Durable.for_await _ _ _ _ _) as [[[b|e] s] t];
    unfold ret, state_of, completion_of, effects_of; cbn;
    rewrite ?app_nil_r; reflexivity.
Qed.

Lemma memory_on_add_run (parsed : ChatMessage) (nanoid8 : string)
    (eventStream : list string) (st : InMemory.Chat) :
  let ai := placeholder nanoid8 in
  let loop := InMemory.for_await JSON_parse_response ai eventStream ""
                {| InMemory.messages := (InMemory.messages st ++ [parsed]) ++ [ai] |} in
  InMemory.on_add JSON_parse_response parsed nanoid8 eventStream st =
    (discard (completion_of loop), state_of loop,
     [Broadcast (Stringify (Add ai)) [];
      AiRun model_name (map to_prompt (InMemory.messages st ++ [parsed]))]
     ++ effects_of loop).
Proof.
  cbv zeta. unfold InMemory.on_add. fold (placeholder nanoid8).
  unfold bind at 1. unfold get at 1.
  unfold bind at 1. unfold put at 1.
  unfold bind at 1. unfold InMemory.broadcastMessage at 1, emit at 1.
  unfold bind at 1. unfold get at 1.
  unfold bind at 1. unfold emit at 1.
  unfold bind at 1. unfold get at 1.
  unfold bind at 1. unfold put at 1.
  unfold bind at 1. cbn [InMemory.messages].
  destruct (InMemory.for_await _ _ _ _ _) as [[[b|e] s] t];
    unfold ret, state_of, completion_of, effects_of; cbn;
    rewrite ?app_nil_r; reflexivity.
Qed.

End AddBranch.

Section MemoryIds.

Variable JSON_parse : string -> Completion Parsed.
Variable JSON_parse_response : string -> Completion string.

Lemma memory_for_await_ids (aiMessage : ChatMessage) (events : list string)
    (buffer : string) (st : InMemory.Chat) :
  map id (InMemory.messages
    (state_of (InMemory.for_await JSON_parse_response aiMessage events buffer st)))
  = map id (InMemory.messages st).
Proof.
  revert buffer st. induction events as [|d events IH]; intros buffer st; [done|].
  simpl. destruct (negb (String.eqb d done_marker)).
  - destruct (JSON_parse_response d) as [f|e] eqn:Hd.
    + erewrite !bind_run by reflexivity. rewrite !state_of_tuple. apply IH.
    + erewrite bind_thrown by reflexivity. done.
  - erewrite !bind_run by reflexivity. rewrite !state_of_tuple.
    rewrite IH. cbn [InMemory.messages]. apply finalize_entries.
Qed.

Lemma on_update_ids (m : ChatMessage) (st : InMemory.Chat) :
  map id (InMemory.messages (state_of (InMemory.on_update m st)))
  = map id (InMemory.messages st).
Proof.
  rewrite on_update_run, state_of_tuple. cbn [InMemory.messages].
  destruct (decide (id m ∈ map id (InMemory.messages st))) as [Hin|Hnot].
  - destruct (findIndex_present _ _ Hin) as (n & e & -> & Hn & He & _).
    simpl. by eapply insert_same_id.
  - by rewrite findIndex_absent.
Qed.

End MemoryIds.





(** ** A whole reply: fragments, then the marker *)

Section Reply.

Variable JSON_parse_response : string -> Completion string.

Lemma for_await_complete (aiMessage : ChatMessage) (chunks fragments : list string)
    (buffer : string) (st : Durable.Chat) :
  Forall (fun d => d <> done_marker) chunks ->
  Forall2 (fun d f => JSON_parse_response d = Returned f) chunks fragments ->
  let final := with_content aiMessage (appended buffer fragments) in
  Durable.for_await JSON_parse_response aiMessage (chunks ++ [done_marker]) buffer st =
    (Returned (appended buffer fragments),
     state_of (Durable.saveMessage final st),
     map (partial_update aiMessage) (running buffer fragments)
       ++ [SqlExec (upsert_of final); final_update aiMessage (appended buffer fragments)]).
Proof.
  intros Hnd Hdec. cbv zeta. rewrite for_await_app.
  erewrite bind_run by (by apply for_await_chunks).
  by rewrite for_await_done.
Qed.

Lemma memory_for_await_complete (aiMessage : ChatMessage)
    (chunks fragments : list string) (buffer : string) (st : InMemory.Chat) :
  Forall (fun d => d <> done_marker) chunks ->
  Forall2 (fun d f => JSON_parse_response d = Returned f) chunks fragments ->
  InMemory.for_await JSON_parse_response aiMessage (chunks ++ [done_marker]) buffer st =
    (Returned (appended buffer fragments),
     {| InMemory.messages :=
          InMemory.finalize (id aiMessage) (appended buffer fragments)
                            (InMemory.messages st) |},
     map (partial_update aiMessage) (running buffer fragments)
       ++ [final_update aiMessage (appended buffer fragments)]).
Proof.
  intros Hnd Hdec. rewrite memory_for_await_app.
  erewrite bind_run by (by apply memory_for_await_chunks).
  by rewrite memory_for_await_done.
Qed.

End Reply.

Lemma updates_for_partial (aiMessage : ChatMessage) (buffers : list string) :
  updates_for (id aiMessage) (map (partial_update aiMessage) buffers)
  = map (fun b => with_content aiMessage (b +:+ indicator)) buffers.
Proof.
  unfold updates_for. induction buffers as [|b buffers IH]; [done|].
  change (map (partial_update aiMessage) (b :: buffers))
    with (partial_update aiMessage b :: map (partial_update aiMessage) buffers).
  change (omap ?f (?x :: ?l)) with (match f x with Some y => y :: omap f l | None => omap f l end).
  rewrite IH. unfold partial_update, update_of; cbn [id with_content].
  by rewrite String.eqb_refl.
Qed.

Lemma updates_for_app (i : string) (t1 t2 : list Effect) :
  updates_for i (t1 ++ t2) = updates_for i t1 ++ updates_for i t2.
Proof. apply omap_app. Qed.

Lemma updates_for_final (aiMessage : ChatMessage) (buffer : string) :
  updates_for (id aiMessage) [final_update aiMessage buffer]
  = [with_content aiMessage buffer].
Proof. unfold updates_for. simpl. by rewrite String.eqb_refl. Qed.

Lemma append_cons (x : ascii) (a b : string) : String x a +:+ b = String x (a +:+ b).
Proof. reflexivity. Qed.

Lemma length_append (a b : string) :
  String.length (a +:+ b) = String.length a + String.length b.
Proof.
  induction a as [|x a IH]; [reflexivity|].
  rewrite append_cons. simpl. by rewrite IH.
Qed.

Lemma substring_whole (b : string) : substring 0 (String.length b) b = b.
Proof. induction b as [|x b IH]; [reflexivity|]. simpl. by rewrite IH. Qed.

Lemma substring_append_tail (a b : string) :
  substring (String.length a) (String.length b) (a +:+ b) = b.
Proof.
  induction a as [|x a IH]; [apply substring_whole|].
  rewrite append_cons. simpl. apply IH.
Qed.

Lemma substring_append_head (a b : string) :
  substring 0 (String.length a) (a +:+ b) = a.
Proof.
  induction a as [|x a IH].
  - simpl. by destruct b.
  - rewrite append_cons. simpl. by rewrite IH.
Qed.

(** Stripping gives back the buffer a partial update was built from. *)
Lemma strip_indicator_suffix (b : string) : strip_indicator (b +:+ indicator) = b.
Proof.
  unfold strip_indicator. rewrite length_append.
  change (String.length indicator) with 3.
  replace (String.length b + 3 - 3) with (String.length b) by lia.
  change 3 with (String.length indicator) at 3.
  rewrite (substring_append_tail b indicator), String.eqb_refl.
  replace (3 <=? String.length b + 3)%nat with true
    by (symmetry; apply Nat.leb_le; lia).
  simpl. apply substring_append_head.
Qed.

Lemma strip_partial_updates (buffers : list string) :
  map strip_indicator (map (fun b => b +:+ indicator) buffers) = buffers.
Proof.
  induction buffers as [|b buffers IH]; [done|].
  simpl. by rewrite strip_indicator_suffix, IH.
Qed.

Lemma string_append_assoc (a b c : string) : (a +:+ b) +:+ c = a +:+ (b +:+ c).
Proof.
  induction a as [|x a IH]; [reflexivity|].
  change (String x ((a +:+ b) +:+ c) = String x (a +:+ (b +:+ c))). by rewrite IH.
Qed.

Lemma string_append_nil_r (a : string) : a +:+ "" = a.
Proof.
  induction a as [|x a IH]; [reflexivity|].
  change (String x (a +:+ "") = String x a). by rewrite IH.
Qed.

(** [appended] is the buffer followed by the concatenation of the fragments. *)
Lemma appended_concat (buffer : string) (fragments : list string) :
  appended buffer fragments = buffer +:+ String.concat "" fragments.
Proof.
  revert buffer. induction fragments as [|f fragments IH]; intros buffer.
  - simpl. by rewrite string_append_nil_r.
  - unfold appended in *. simpl foldl. rewrite IH.
    rewrite string_append_assoc. f_equal.
    destruct fragments as [|g fragments]; [by rewrite string_append_nil_r|].
    reflexivity.
Qed.

Lemma updates_for_prelude (i : string) (q q' : SqlUpsert) (m : ChatMessage)
    (model : string) (prompt : list PromptEntry) (t : list Effect) :
  updates_for i ([SqlExec q; Broadcast (Stringify (Add m)) []; AiRun model prompt;
                  SqlExec q'] ++ t) = updates_for i t.
Proof. reflexivity. Qed.

Lemma updates_for_memory_prelude (i : string) (m : ChatMessage)
    (model : string) (prompt : list PromptEntry) (t : list Effect) :
  updates_for i ([Broadcast (Stringify (Add m)) []; AiRun model prompt] ++ t)
  = updates_for i t.
Proof. reflexivity. Qed.

Lemma updates_for_closing (aiMessage : ChatMessage) (q : SqlUpsert) (buffer : string) :
  updates_for (id aiMessage) [SqlExec q; final_update aiMessage buffer]
  = [with_content aiMessage buffer].
Proof. apply updates_for_final. Qed.

(** C1, as the code has it: when the backend stream is a sequence of
    well-formed fragments followed by the end-of-stream marker, the k-th
    update broadcast for the reply carries the concatenation of the first k
    fragments followed by the typing indicator, and one last update carries
    the concatenation of all fragments; that last content is the content
    persisted for the reply id, in the table and in the log. *)
Theorem updates_carry_running_buffer
    (JSON_parse_response : string -> Completion string)
    (parsed : ChatMessage) (nanoid8 : string) (chunks fragments : list string)
    (st : Durable.Chat) (mst : InMemory.Chat) :
  Forall (fun d => d <> done_marker) chunks ->
  Forall2 (fun d f => JSON_parse_response d = Returned f) chunks fragments ->
  let final := String.concat "" fragments in
  let wire := map (fun b => b +:+ indicator) (running "" fragments) ++ [final] in
  let r := Durable.on_add JSON_parse_response parsed nanoid8
             (chunks ++ [done_marker]) st in
  let mr := InMemory.on_add JSON_parse_response parsed nanoid8
              (chunks ++ [done_marker]) mst in
  completion_of r = Returned tt /\
  map content (updates_for nanoid8 (effects_of r)) = wire /\
  stored_content nanoid8 (state_of r) = Some final /\
  (exists e, e ∈ Durable.messages (state_of r) /\ id e = nanoid8) /\
  (forall e, e ∈ Durable.messages (state_of r) -> id e = nanoid8 -> content e = final) /\
  completion_of mr = Returned tt /\
  map content (updates_for nanoid8 (effects_of mr)) = wire /\
  (exists e, e ∈ InMemory.messages (state_of mr) /\ id e = nanoid8) /\
  (forall e, e ∈ InMemory.messages (state_of mr) -> id e = nanoid8 -> content e = final).
Proof.
  intros Hnd Hdec. cbv zeta.
  assert (String.concat "" fragments = appended "" fragments) as ->.
  { by rewrite appended_concat. }
  rewrite on_add_run, memory_on_add_run. cbv zeta.
  rewrite (for_await_complete _ _ chunks fragments) by done.
  rewrite (memory_for_await_complete _ _ chunks fragments) by done.
  unfold completion_of, state_of, effects_of; cbn [fst snd].
  set (ai := placeholder nanoid8). set (b := appended "" fragments).
  change nanoid8 with (id ai).
  split_and!.
  - reflexivity.
  - rewrite updates_for_prelude, updates_for_app, updates_for_partial,
      updates_for_closing.
    rewrite map_app, map_map. reflexivity.
  - apply (stored_content_saved (with_content ai b)).
  - exists (with_content ai b). split; [|done].
    rewrite saveMessage_run. apply save_in_memory_entries.
  - intros e He Hid. rewrite saveMessage_run in He.
    apply (save_in_memory_entries (with_content ai b)) in He as ->; done.
  - reflexivity.
  - rewrite updates_for_memory_prelude, updates_for_app, updates_for_partial,
      updates_for_final.
    rewrite map_app, map_map. reflexivity.
  - cbn [InMemory.messages].
    assert (id ai ∈ map id (InMemory.finalize (id ai) b
              ((InMemory.messages mst ++ [parsed]) ++ [ai]))) as Hin.
    { rewrite (proj1 (finalize_entries _ _ _)). rewrite map_app. set_solver. }
    apply list_elem_of_fmap in Hin as (e & He & Hel). by exists e.
  - cbn [InMemory.messages]. apply finalize_entries.
Qed.

Lemma updates_carry_running_buffer_witness :
  let r := Durable.on_add chunk_response msg_hi "ai1"
             ([chunk "a"; chunk "b"] ++ [done_marker]) empty_room in
  map content (updates_for "ai1" (effects_of r)) = ["a..."; "ab..."; "ab"] /\
  stored_content "ai1" (state_of r) = Some "ab".
Proof.
  cbv zeta.
  pose proof (updates_carry_running_buffer chunk_response msg_hi "ai1"
    [chunk "a"; chunk "b"] ["a"; "b"] empty_room empty_memory_room) as H.
  cbv zeta in H. destruct H as (_ & Hu & Hs & _).
  - repeat constructor; discriminate.
  - repeat constructor.
  - split; [exact Hu | exact Hs].
Defined.

(** C1, as stated, fails: with the stream of one fragment [a] and the
    marker the updates carry [a...] and [a]; stripped and concatenated they
    give [aa], while the content persisted for the reply is [a]. *)
Lemma replay_differs_from_persisted :
  let r := Durable.on_add chunk_response msg_hi "ai1"
             [chunk "a"; done_marker] empty_room in
  let mr := InMemory.on_add chunk_response msg_hi "ai1"
              [chunk "a"; done_marker] empty_memory_room in
  completion_of r = Returned tt /\
  map content (updates_for "ai1" (effects_of r)) = ["a..."; "a"] /\
  replay (updates_for "ai1" (effects_of r)) = "aa" /\
  stored_content "ai1" (state_of r) = Some "a" /\
  Some (replay (updates_for "ai1" (effects_of r))) <> stored_content "ai1" (state_of r) /\
  completion_of mr = Returned tt /\
  replay (updates_for "ai1" (effects_of mr)) = "aa" /\
  InMemory.messages (state_of mr) = [msg_hi; with_content (placeholder "ai1") "a"].
Proof.
  cbv zeta. split_and!; try reflexivity. vm_compute. discriminate.
Qed.

(** ** The prompt and the placeholder *)

Lemma save_in_memory_last (m reply : ChatMessage) (base : list ChatMessage) :
  id m ∉ map id base -> id reply = id m ->
  Durable.save_in_memory m (base ++ [reply]) = base ++ [m].
Proof.
  intros Hnot Hid. rewrite save_in_memory_present.
  - rewrite map_app. rewrite replace_absent by done. simpl.
    rewrite Hid. by rewrite String.eqb_refl.
  - rewrite map_app. simpl. rewrite Hid. set_solver.
Qed.

Lemma finalize_last (i buffer : string) (reply : ChatMessage) (base : list ChatMessage) :
  i ∉ map id base -> id reply = i ->
  InMemory.finalize i buffer (base ++ [reply]) = base ++ [with_content reply buffer].
Proof.
  intros Hnot Hid. unfold InMemory.finalize. rewrite map_app. simpl.
  rewrite Hid, String.eqb_refl. f_equal.
  induction base as [|e base IH]; simpl; [done|].
  simpl in Hnot. apply not_elem_of_cons in Hnot as [Hne Hnot].
  destruct (String.eqb_spec (id e) i); [congruence|]. by rewrite IH.
Qed.

Section Frame.

Variable JSON_parse_response : string -> Completion string.

(** The loop never calls the backend, and it leaves the log as it is up to
    the entry of the reply. *)
Lemma for_await_frame (aiMessage : ChatMessage) (events : list string)
    (base : list ChatMessage) (buffer : string) (st : Durable.Chat)
    (reply : ChatMessage) :
  id aiMessage ∉ map id base -> id reply = id aiMessage ->
  Durable.messages st = base ++ [reply] ->
  exists reply',
    id reply' = id aiMessage /\
    Durable.messages
      (state_of (Durable.for_await JSON_parse_response aiMessage events buffer st))
    = base ++ [reply'].
Proof.
  intros Hnot. revert buffer st reply.
  induction events as [|d events IH]; intros buffer st reply Hid Hlog.
  - exists reply. simpl. done.
  - simpl. destruct (negb (String.eqb d done_marker)).
    + destruct (JSON_parse_response d) as [f|e] eqn:Hd.
      * erewrite bind_run by reflexivity.
        erewrite bind_run by reflexivity.
        rewrite !state_of_tuple. by eapply IH.
      * erewrite bind_thrown by reflexivity.
        exists reply. done.
    + erewrite bind_run by apply saveMessage_run.
      erewrite bind_run by reflexivity.
      rewrite !state_of_tuple.
      eapply (IH _ _ (with_content aiMessage buffer)); [done|].
      cbn [Durable.messages]. rewrite Hlog.
      by apply (save_in_memory_last (with_content aiMessage buffer)).
Qed.

Lemma for_await_no_prompt (aiMessage : ChatMessage) (events : list string)
    (buffer : string) (st : Durable.Chat) :
  prompts (effects_of (Durable.for_await JSON_parse_response aiMessage events buffer st))
  = [].
Proof.
  revert buffer st. induction events as [|d events IH]; intros buffer st; [done|].
  simpl. destruct (negb (String.eqb d done_marker)).
  - destruct (JSON_parse_response d) as [f|e] eqn:Hd.
    + erewrite bind_run by reflexivity.
      erewrite bind_run by reflexivity.
      rewrite !effects_of_tuple, !prompts_app, IH. done.
    + erewrite bind_thrown by reflexivity. done.
  - erewrite bind_run by apply saveMessage_run.
    erewrite bind_run by reflexivity.
    rewrite !effects_of_tuple, !prompts_app, IH. done.
Qed.

Lemma memory_for_await_frame (aiMessage : ChatMessage) (events : list string)
    (base : list ChatMessage) (buffer : string) (st : InMemory.Chat)
    (reply : ChatMessage) :
  id aiMessage ∉ map id base -> id reply = id aiMessage ->
  InMemory.messages st = base ++ [reply] ->
  exists reply',
    id reply' = id aiMessage /\
    InMemory.messages
      (state_of (InMemory.for_await JSON_parse_response aiMessage events buffer st))
    = base ++ [reply'].
Proof.
  intros Hnot. revert buffer st reply.
  induction events as [|d events IH]; intros buffer st reply Hid Hlog.
  - exists reply. simpl. done.
  - simpl. destruct (negb (String.eqb d done_marker)).
    + destruct (JSON_parse_response d) as [f|e] eqn:Hd.
      * erewrite bind_run by reflexivity.
        erewrite bind_run by reflexivity.
        rewrite !state_of_tuple. by eapply IH.
      * erewrite bind_thrown by reflexivity.
        exists reply. done.
    + erewrite bind_run by reflexivity.
      erewrite bind_run by reflexivity.
      erewrite bind_run by reflexivity.
      rewrite !state_of_tuple.
      eapply (IH _ _ (with_content reply buffer)); [done|].
      cbn [InMemory.messages]. rewrite Hlog. by apply finalize_last.
Qed.

Lemma memory_for_await_no_prompt (aiMessage : ChatMessage) (events : list string)
    (buffer : string) (st : InMemory.Chat) :
  prompts (effects_of (InMemory.for_await JSON_parse_response aiMessage events buffer st))
  = [].
Proof.
  revert buffer st. induction events as [|d events IH]; intros buffer st; [done|].
  simpl. destruct (negb (String.eqb d done_marker)).
  - destruct (JSON_parse_response d) as [f|e] eqn:Hd.
    + erewrite bind_run by reflexivity.
      erewrite bind_run by reflexivity.
      rewrite !effects_of_tuple, !prompts_app, IH. done.
    + erewrite bind_thrown by reflexivity. done.
  - erewrite bind_run by reflexivity.
    erewrite bind_run by reflexivity.
    erewrite bind_run by reflexivity.
    rewrite !effects_of_tuple, !prompts_app, IH. done.
Qed.

End Frame.



(** C9: for every add event the backend is called once, and its prompt is
    the projection of the log as it stands after the user's message was
    stored and before the placeholder is; when the generated id is not in
    that log, the log the handler leaves is that log followed by the one
    entry of the reply, so no entry of the prompt comes from the
    placeholder. *)
Theorem prompt_is_log_before_placeholder
    (JSON_parse_response : string -> Completion string)
    (parsed : ChatMessage) (nanoid8 : string) (eventStream : list string)
    (st : Durable.Chat) (mst : InMemory.Chat) :
  let log := Durable.messages (state_of (Durable.saveMessage parsed st)) in
  let mlog := InMemory.messages mst ++ [parsed] in
  let r := Durable.on_add JSON_parse_response parsed nanoid8 eventStream st in
  let mr := InMemory.on_add JSON_parse_response parsed nanoid8 eventStream mst in
  prompts (effects_of r) = [map to_prompt log] /\
  prompts (effects_of mr) = [map to_prompt mlog] /\
  (nanoid8 ∉ map id log ->
     exists reply, id reply = nanoid8 /\ Durable.messages (state_of r) = log ++ [reply]) /\
  (nanoid8 ∉ map id mlog ->
     exists reply, id reply = nanoid8 /\ InMemory.messages (state_of mr) = mlog ++ [reply]).
Proof.
  cbv zeta. rewrite on_add_run, memory_on_add_run. cbv zeta.
  rewrite !effects_of_tuple, !state_of_tuple. split_and!.
  - rewrite prompts_app, for_await_no_prompt. reflexivity.
  - rewrite prompts_app, memory_for_await_no_prompt. reflexivity.
  - intros Hfresh.
    apply (for_await_frame JSON_parse_response (placeholder nanoid8) eventStream
             _ "" _ (placeholder nanoid8)); [done|done|].
    rewrite (saveMessage_run (placeholder nanoid8)), state_of_tuple.
    cbn [Durable.messages]. by apply save_in_memory_absent.
  - intros Hfresh.
    apply (memory_for_await_frame JSON_parse_response (placeholder nanoid8) eventStream
             _ "" _ (placeholder nanoid8)); done.
Qed.

Lemma prompt_is_log_before_placeholder_witness :
  let r := Durable.on_add chunk_response msg_yo "ai1" [chunk "a"; done_marker]
             (state_of (Durable.saveMessage msg_hi empty_room)) in
  let mr := InMemory.on_add chunk_response msg_yo "ai1" [chunk "a"; done_marker]
              {| InMemory.messages := [msg_hi] |} in
  prompts (effects_of r) = [[("hi", RoleUser); ("yo", RoleUser)]] /\
  (exists reply, id reply = "ai1" /\
     Durable.messages (state_of r) = [msg_hi; msg_yo] ++ [reply]) /\
  (exists reply, id reply = "ai1" /\
     InMemory.messages (state_of mr) = [msg_hi; msg_yo] ++ [reply]).
Proof.
  cbv zeta.
  pose proof (prompt_is_log_before_placeholder chunk_response msg_yo "ai1"
    [chunk "a"; done_marker] (state_of (Durable.saveMessage msg_hi empty_room))
    {| InMemory.messages := [msg_hi] |}) as H.
  cbv zeta in H. destruct H as (Hp & _ & Hd & Hm).
  split_and!.
  - exact Hp.
  - apply Hd. vm_compute. intros H. apply elem_of_cons in H as [H|H]; [discriminate|].
    apply elem_of_cons in H as [H|H]; [discriminate|]. by apply elem_of_nil in H.
  - apply Hm. vm_compute. intros H. apply elem_of_cons in H as [H|H]; [discriminate|].
    apply elem_of_cons in H as [H|H]; [discriminate|]. by apply elem_of_nil in H.
Defined.

(** ** Connections *)

(** C8: the connect handler sends the new connection one event, the
    snapshot holding the whole log in its order, and does nothing else: the
    room is unchanged, and whatever the room sends afterwards reaches the
    connection after the snapshot. *)
Theorem onConnect_sends_one_snapshot (connection : string)
    (st : Durable.Chat) (mst : InMemory.Chat) :
  Durable.onConnect connection st =
    (Returned tt, st, [Send connection (Stringify (All (Durable.messages st)))]) /\
  InMemory.onConnect connection mst =
    (Returned tt, mst, [Send connection (Stringify (All (InMemory.messages mst)))]) /\
  (forall later : list Effect,
     inbox connection (effects_of (Durable.onConnect connection st) ++ later)
     = Stringify (All (Durable.messages st)) :: inbox connection later) /\
  (forall later : list Effect,
     inbox connection (effects_of (InMemory.onConnect connection mst) ++ later)
     = Stringify (All (InMemory.messages mst)) :: inbox connection later).
Proof.
  split_and!; try reflexivity.
  - intros later. unfold inbox. simpl. by rewrite String.eqb_refl.
  - intros later. unfold inbox. simpl. by rewrite String.eqb_refl.
Qed.

(** ** Sequences of add events through the handlers *)

Lemma not_elem_of_snoc (x y : string) (l : list string) :
  x ∉ l -> x <> y -> x ∉ l ++ [y].
Proof.
  intros Hl Hy Hin. apply elem_of_app in Hin as [Hin|Hin]; [done|].
  by apply list_elem_of_singleton in Hin.
Qed.

Section AddSequences.

Variable JSON_parse_response : string -> Completion string.



End AddSequences.


(** ** The handlers on every input *)

Section Runs.

Variable JSON_parse : string -> Completion Parsed.
Variable JSON_parse_response : string -> Completion string.

Lemma onMessage_run (connection message nanoid8 : string) (eventStream : list string)
    (st : Durable.Chat) :
  Durable.onMessage JSON_parse JSON_parse_response connection message nanoid8
    eventStream st =
  match JSON_parse message with
  | Thrown e => (Thrown e, st, [Broadcast (Raw message) []])
  | Returned ParsedNull => (Thrown TypeError, st, [Broadcast (Raw message) []])
  | Returned (ParsedMessage (Add m)) =>
      let r := Durable.on_add JSON_parse_response m nanoid8 eventStream st in
      (completion_of r, state_of r, Broadcast (Raw message) [] :: effects_of r)
  | Returned (ParsedMessage (Update m)) =>
      (Returned tt, state_of (Durable.saveMessage m st),
       [Broadcast (Raw message) []; SqlExec (upsert_of m)])
  | Returned _ => (Returned tt, st, [Broadcast (Raw message) []])
  end.
Proof.
  unfold Durable.onMessage.
  erewrite bind_run by reflexivity.
  destruct (JSON_parse message) as [[|[m|m|ms]|]|e] eqn:E; try reflexivity.
  erewrite bind_run by reflexivity. reflexivity.
Qed.

Lemma memory_onMessage_run (connection message nanoid8 : string)
    (eventStream : list string) (st : InMemory.Chat) :
  InMemory.onMessage JSON_parse JSON_parse_response connection message nanoid8
    eventStream st =
  match JSON_parse message with
  | Thrown e => (Thrown e, st, [Broadcast (Raw message) []])
  | Returned ParsedNull => (Thrown TypeError, st, [Broadcast (Raw message) []])
  | Returned (ParsedMessage (Add m)) =>
      let r := InMemory.on_add JSON_parse_response m nanoid8 eventStream st in
      (completion_of r, state_of r, Broadcast (Raw message) [] :: effects_of r)
  | Returned (ParsedMessage (Update m)) =>
      (Returned tt, state_of (InMemory.on_update m st), [Broadcast (Raw message) []])
  | Returned _ => (Returned tt, st, [Broadcast (Raw message) []])
  end.
Proof.
  unfold InMemory.onMessage.
  erewrite bind_run by reflexivity.
  destruct (JSON_parse message) as [[|[m|m|ms]|]|e] eqn:E; try reflexivity.
  erewrite bind_run by reflexivity. reflexivity.
Qed.

(** What every store upsert keeps, the loop and the handler keep. *)
Lemma for_await_preserves (P : Durable.Chat -> Prop) (aiMessage : ChatMessage)
    (events : list string) (buffer : string) (st : Durable.Chat) :
  (forall m s, P s -> P (state_of (Durable.saveMessage m s))) ->
  P st ->
  P (state_of (Durable.for_await JSON_parse_response aiMessage events buffer st)).
Proof.
  intros Hsave. revert buffer st.
  induction events as [|d events IH]; intros buffer st HP; [done|].
  simpl. destruct (negb (String.eqb d done_marker)).
  - destruct (JSON_parse_response d) as [f|e] eqn:Hd.
    + erewrite bind_run by reflexivity. erewrite bind_run by reflexivity.
      rewrite !state_of_tuple. by apply IH.
    + erewrite bind_thrown by reflexivity. done.
  - erewrite bind_run by apply saveMessage_run. erewrite bind_run by reflexivity.
    rewrite !state_of_tuple. apply IH.
    pose proof (Hsave (with_content aiMessage buffer) st HP) as H.
    by rewrite saveMessage_run, state_of_tuple in H.
Qed.

Lemma on_add_preserves (P : Durable.Chat -> Prop) (parsed : ChatMessage)
    (nanoid8 : string) (eventStream : list string) (st : Durable.Chat) :
  (forall m s, P s -> P (state_of (Durable.saveMessage m s))) ->
  P st ->
  P (state_of (Durable.on_add JSON_parse_response parsed nanoid8 eventStream st)).
Proof.
  intros Hsave HP. rewrite on_add_run. cbv zeta. rewrite state_of_tuple.
  apply for_await_preserves; [done|]. by do 2 apply Hsave.
Qed.

Lemma onMessage_preserves (P : Durable.Chat -> Prop)
    (connection message nanoid8 : string) (eventStream : list string)
    (st : Durable.Chat) :
  (forall m s, P s -> P (state_of (Durable.saveMessage m s))) ->
  P st ->
  P (state_of (Durable.onMessage JSON_parse JSON_parse_response connection message
                 nanoid8 eventStream st)).
Proof.
  intros Hsave HP. rewrite onMessage_run.
  destruct (JSON_parse message) as [[|[m|m|ms]|]|e]; cbv zeta;
    rewrite ?state_of_tuple; try done.
  - by apply on_add_preserves.
  - by apply Hsave.
Qed.

End Runs.

(** ** Invariants of the durable server *)

Lemma save_in_memory_ids_prefix (m : ChatMessage) (log : list ChatMessage) :
  map id log `prefix_of` map id (Durable.save_in_memory m log).
Proof.
  destruct (decide (id m ∈ map id log)) as [H|H].
  - rewrite save_in_memory_present by done. by rewrite replace_ids.
  - rewrite save_in_memory_absent by done. rewrite map_app. by apply prefix_app_r.
Qed.

Lemma save_in_memory_NoDup (m : ChatMessage) (log : list ChatMessage) :
  NoDup (map id log) -> NoDup (map id (Durable.save_in_memory m log)).
Proof.
  intros Hnd. destruct (decide (id m ∈ map id log)) as [H|H].
  - rewrite save_in_memory_present by done. by rewrite replace_ids.
  - rewrite save_in_memory_absent by done. rewrite map_app. simpl.
    apply NoDup_app. split_and!; [done| |apply NoDup_singleton].
    intros x Hx. rewrite list_elem_of_singleton. by intros ->.
Qed.

Lemma save_in_memory_other (m e : ChatMessage) (log : list ChatMessage) :
  e ∈ Durable.save_in_memory m log -> id e <> id m -> e ∈ log.
Proof.
  intros He Hne. destruct (decide (id m ∈ map id log)) as [H|H].
  - rewrite save_in_memory_present in He by done.
    apply list_elem_of_fmap in He as (e0 & -> & Hel).
    destruct (String.eqb_spec (id e0) (id m)); [done|]. done.
  - rewrite save_in_memory_absent in He by done.
    apply elem_of_app in He as [He|He]; [done|].
    apply list_elem_of_singleton in He. by subst.
Qed.

Lemma sql_upsert_other (q : SqlUpsert) (table : gmap string Durable.Row) (i : string) :
  i <> bind_id q -> Durable.sql_upsert q table !! i = table !! i.
Proof.
  intros Hne. unfold Durable.sql_upsert.
  destruct (table !! bind_id q); by rewrite lookup_insert_ne.
Qed.

Lemma saveMessage_in_step (m : ChatMessage) (st : Durable.Chat) :
  in_step st -> in_step (state_of (Durable.saveMessage m st)).
Proof.
  intros [Hlog Hrows]. rewrite saveMessage_run, state_of_tuple. split.
  - intros e He. cbn [Durable.messages] in He. unfold stored_content.
    cbn [Durable.storage].
    destruct (decide (id e = id m)) as [E|E].
    + apply save_in_memory_entries in He as ->; [|done]. apply sql_upsert_content.
    + rewrite sql_upsert_other by done.
      apply (Hlog e). by eapply save_in_memory_other.
  - intros i Hi. cbn [Durable.messages Durable.storage] in *.
    destruct (decide (i = id m)) as [->|E].
    + apply save_in_memory_ids.
    + rewrite sql_upsert_other in Hi by done.
      destruct (save_in_memory_ids_prefix m (Durable.messages st)) as [k ->].
      apply elem_of_app. left. by apply Hrows.
Qed.

(** X1: whatever the payload, the generated id and the backend stream, and
    whether the handler returns or throws, a log without two entries of
    one id is left without two entries of one id by the durable server. *)
Theorem onMessage_keeps_ids_distinct
    (JSON_parse : string -> Completion Parsed)
    (JSON_parse_response : string -> Completion string)
    (connection message nanoid8 : string) (eventStream : list string)
    (st : Durable.Chat) :
  NoDup (map id (Durable.messages st)) ->
  NoDup (map id (Durable.messages
    (state_of (Durable.onMessage JSON_parse JSON_parse_response connection message
                 nanoid8 eventStream st)))).
Proof.
  intros Hnd.
  apply (onMessage_preserves JSON_parse JSON_parse_response
           (fun s => NoDup (map id (Durable.messages s)))); [|done].
  intros m s Hs. rewrite saveMessage_run, state_of_tuple.
  by apply save_in_memory_NoDup.
Qed.

Lemma onMessage_keeps_ids_distinct_witness :
  let st := state_of (Durable.saveMessage msg_yo empty_room) in
  let st' := state_of (Durable.onMessage sample_parse chunk_response "c1"
                         (event_text "add" msg_hi) "ai1" [chunk "a"; done_marker] st) in
  map id (Durable.messages st') = ["m2"; "m1"; "ai1"] /\
  NoDup (map id (Durable.messages st')).
Proof.
  cbv zeta. split; [reflexivity|].
  apply (onMessage_keeps_ids_distinct sample_parse chunk_response "c1"
           (event_text "add" msg_hi) "ai1" [chunk "a"; done_marker]
           (state_of (Durable.saveMessage msg_yo empty_room))).
  simpl. apply NoDup_singleton.
Defined.

(** X2: the durable server keeps log and table in step through every
    message: when every log entry has a row with its content and every row
    has a log entry, the same holds after the handler, on every input. *)
Theorem onMessage_keeps_log_and_table_in_step
    (JSON_parse : string -> Completion Parsed)
    (JSON_parse_response : string -> Completion string)
    (connection message nanoid8 : string) (eventStream : list string)
    (st : Durable.Chat) :
  in_step st ->
  in_step (state_of (Durable.onMessage JSON_parse JSON_parse_response connection
                       message nanoid8 eventStream st)).
Proof.
  intros Hst. apply (onMessage_preserves JSON_parse JSON_parse_response in_step); [|done].
  intros m s. apply saveMessage_in_step.
Qed.

Lemma onMessage_keeps_log_and_table_in_step_witness :
  let st := state_of (Durable.saveMessage msg_yo empty_room) in
  let st' := state_of (Durable.onMessage sample_parse chunk_response "c1"
                         (event_text "add" msg_hi) "ai1" [chunk "a"; done_marker] st) in
  Durable.messages st' = [msg_yo; msg_hi; with_content (placeholder "ai1") "a"] /\
  stored_content "ai1" st' = Some "a" /\
  in_step st'.
Proof.
  cbv zeta. split_and!; [reflexivity|reflexivity|].
  apply (onMessage_keeps_log_and_table_in_step sample_parse chunk_response "c1"
           (event_text "add" msg_hi) "ai1" [chunk "a"; done_marker]
           (state_of (Durable.saveMessage msg_yo empty_room))).
  apply saveMessage_in_step. split.
  - intros e He. simpl in He. by apply elem_of_nil in He.
  - intros i [row Hi]. simpl in Hi. by rewrite lookup_empty in Hi.
Defined.

(** X3: the durable server never removes or moves an entry: on every
    input, the ids of the log before the handler are a prefix of the ids
    of the log after it. *)
Theorem onMessage_ids_append_only
    (JSON_parse : string -> Completion Parsed)
    (JSON_parse_response : string -> Completion string)
    (connection message nanoid8 : string) (eventStream : list string)
    (st : Durable.Chat) :
  map id (Durable.messages st) `prefix_of`
  map id (Durable.messages
    (state_of (Durable.onMessage JSON_parse JSON_parse_response connection message
                 nanoid8 eventStream st))).
Proof.
  apply (onMessage_preserves JSON_parse JSON_parse_response
           (fun s => map id (Durable.messages st) `prefix_of` map id (Durable.messages s)));
    [|done].
  intros m s Hs. rewrite saveMessage_run, state_of_tuple. cbn [Durable.messages].
  etrans; [exact Hs|]. apply save_in_memory_ids_prefix.
Qed.

(** ** What a message run sends and calls *)

Lemma inbox_cons (c : string) (e : Effect) (t : list Effect) :
  inbox c (e :: t) =
    match delivered c e with
    | Some d => d :: inbox c t
    | None => inbox c t
    end.
Proof. reflexivity. Qed.

Lemma inbox_same_for_all (c c' : string) (t : list Effect) :
  Forall same_for_all t -> inbox c t = inbox c' t.
Proof.
  induction 1 as [|e t He Ht IH]; [done|].
  rewrite !inbox_cons, IH.
  destruct e as [conn d|d exclude|q|model prompt]; simpl in *; try done.
  by subst.
Qed.

Section Effects.

Variable JSON_parse : string -> Completion Parsed.
Variable JSON_parse_response : string -> Completion string.

Lemma for_await_same_for_all (aiMessage : ChatMessage) (events : list string)
    (buffer : string) (st : Durable.Chat) :
  Forall same_for_all
    (effects_of (Durable.for_await JSON_parse_response aiMessage events buffer st)).
Proof.
  revert buffer st. induction events as [|d events IH]; intros buffer st.
  - simpl. apply Forall_nil_2.
  - simpl. destruct (negb (String.eqb d done_marker)).
    + destruct (JSON_parse_response d) as [f|e] eqn:Hd.
      * erewrite bind_run by reflexivity. erewrite bind_run by reflexivity.
        rewrite !effects_of_tuple. simpl. apply Forall_cons. split; [done|apply IH].
      * erewrite bind_thrown by reflexivity. apply Forall_nil_2.
    + erewrite bind_run by apply saveMessage_run. erewrite bind_run by reflexivity.
      rewrite !effects_of_tuple. simpl.
      apply Forall_cons. split; [done|]. apply Forall_cons. split; [done|apply IH].
Qed.

Lemma memory_for_await_same_for_all (aiMessage : ChatMessage) (events : list string)
    (buffer : string) (st : InMemory.Chat) :
  Forall same_for_all
    (effects_of (InMemory.for_await JSON_parse_response aiMessage events buffer st)).
Proof.
  revert buffer st. induction events as [|d events IH]; intros buffer st.
  - simpl. apply Forall_nil_2.
  - simpl. destruct (negb (String.eqb d done_marker)).
    + destruct (JSON_parse_response d) as [f|e] eqn:Hd.
      * erewrite bind_run by reflexivity. erewrite bind_run by reflexivity.
        rewrite !effects_of_tuple. simpl. apply Forall_cons. split; [done|apply IH].
      * erewrite bind_thrown by reflexivity. apply Forall_nil_2.
    + erewrite bind_run by reflexivity. erewrite bind_run by reflexivity.
      erewrite bind_run by reflexivity.
      rewrite !effects_of_tuple. simpl.
      apply Forall_cons. split; [done|apply IH].
Qed.

Lemma onMessage_same_for_all (connection message nanoid8 : string)
    (eventStream : list string) (st : Durable.Chat) :
  Forall same_for_all
    (effects_of (Durable.onMessage JSON_parse JSON_parse_response connection message
                   nanoid8 eventStream st)).
Proof.
  rewrite onMessage_run.
  destruct (JSON_parse message) as [[|[m|m|ms]|]|e]; cbv zeta;
    rewrite ?effects_of_tuple; repeat (apply Forall_cons; split; [done|]);
    try apply Forall_nil_2.
  rewrite on_add_run. cbv zeta. rewrite effects_of_tuple.
  apply Forall_app. split; [|apply for_await_same_for_all].
  repeat (apply Forall_cons; split; [done|]). apply Forall_nil_2.
Qed.

Lemma memory_onMessage_same_for_all (connection message nanoid8 : string)
    (eventStream : list string) (st : InMemory.Chat) :
  Forall same_for_all
    (effects_of (InMemory.onMessage JSON_parse JSON_parse_response connection message
                   nanoid8 eventStream st)).
Proof.
  rewrite memory_onMessage_run.
  destruct (JSON_parse message) as [[|[m|m|ms]|]|e]; cbv zeta;
    rewrite ?effects_of_tuple; repeat (apply Forall_cons; split; [done|]);
    try apply Forall_nil_2.
  rewrite memory_on_add_run. cbv zeta. rewrite effects_of_tuple.
  apply Forall_app. split; [|apply memory_for_await_same_for_all].
  repeat (apply Forall_cons; split; [done|]). apply Forall_nil_2.
Qed.

Lemma onMessage_first_effect (connection message nanoid8 : string)
    (eventStream : list string) (st : Durable.Chat) :
  exists rest,
    effects_of (Durable.onMessage JSON_parse JSON_parse_response connection message
                  nanoid8 eventStream st) = Broadcast (Raw message) [] :: rest.
Proof.
  rewrite onMessage_run.
  destruct (JSON_parse message) as [[|[m|m|ms]|]|e]; cbv zeta;
    rewrite effects_of_tuple; by eexists.
Qed.

Lemma memory_onMessage_first_effect (connection message nanoid8 : string)
    (eventStream : list string) (st : InMemory.Chat) :
  exists rest,
    effects_of (InMemory.onMessage JSON_parse JSON_parse_response connection message
                  nanoid8 eventStream st) = Broadcast (Raw message) [] :: rest.
Proof.
  rewrite memory_onMessage_run.
  destruct (JSON_parse message) as [[|[m|m|ms]|]|e]; cbv zeta;
    rewrite effects_of_tuple; by eexists.
Qed.

End Effects.

(** X4: on every input, every connected participant, the sender included,
    receives the same events in the same order from a message run, and the
    first of them is the raw payload: the relay excludes nobody and the
    handler sends nothing to one connection alone. *)
Theorem onMessage_same_events_for_everyone
    (JSON_parse : string -> Completion Parsed)
    (JSON_parse_response : string -> Completion string)
    (connection message nanoid8 : string) (eventStream : list string)
    (st : Durable.Chat) (mst : InMemory.Chat) (c : string) :
  let t := effects_of (Durable.onMessage JSON_parse JSON_parse_response connection
                         message nanoid8 eventStream st) in
  let mt := effects_of (InMemory.onMessage JSON_parse JSON_parse_response connection
                          message nanoid8 eventStream mst) in
  inbox c t = inbox connection t /\
  (exists rest, inbox c t = Raw message :: rest) /\
  inbox c mt = inbox connection mt /\
  (exists rest, inbox c mt = Raw message :: rest).
Proof.
  cbv zeta. split_and!.
  - apply inbox_same_for_all, onMessage_same_for_all.
  - destruct (onMessage_first_effect JSON_parse JSON_parse_response connection message
                nanoid8 eventStream st) as [rest ->].
    by exists (inbox c rest).
  - apply inbox_same_for_all, memory_onMessage_same_for_all.
  - destruct (memory_onMessage_first_effect JSON_parse JSON_parse_response connection
                message nanoid8 eventStream mst) as [rest ->].
    by exists (inbox c rest).
Qed.

(** X5: a message run calls the completion backend once when the payload
    parses to an add event and never otherwise, in both servers, whatever
    the stream holds. *)
Theorem backend_called_once_per_add
    (JSON_parse : string -> Completion Parsed)
    (JSON_parse_response : string -> Completion string)
    (connection message nanoid8 : string) (eventStream : list string)
    (st : Durable.Chat) (mst : InMemory.Chat) :
  length (prompts (effects_of
    (Durable.onMessage JSON_parse JSON_parse_response connection message nanoid8
       eventStream st))) = backend_calls (JSON_parse message) /\
  length (prompts (effects_of
    (InMemory.onMessage JSON_parse JSON_parse_response connection message nanoid8
       eventStream mst))) = backend_calls (JSON_parse message).
Proof.
  rewrite onMessage_run, memory_onMessage_run.
  destruct (JSON_parse message) as [[|[m|m|ms]|]|e]; cbv zeta;
    rewrite !effects_of_tuple; try done.
  rewrite on_add_run, memory_on_add_run. cbv zeta. rewrite !effects_of_tuple.
  change (prompts (Broadcast (Raw message) [] :: ?t)) with (prompts t).
  rewrite !prompts_app, for_await_no_prompt, memory_for_await_no_prompt.
  done.
Qed.

(** ** Streams that do not end with the marker *)

Section Streams.

Variable JSON_parse_response : string -> Completion string.

Lemma for_await_failure (aiMessage : ChatMessage) (chunks fragments : list string)
    (bad : string) (e : Exception) (rest : list string) (buffer : string)
    (st : Durable.Chat) :
  Forall (fun d => d <> done_marker) chunks ->
  Forall2 (fun d f => JSON_parse_response d = Returned f) chunks fragments ->
  bad <> done_marker ->
  JSON_parse_response bad = Thrown e ->
  Durable.for_await JSON_parse_response aiMessage (chunks ++ bad :: rest) buffer st =
    (Thrown e, st, map (partial_update aiMessage) (running buffer fragments)).
Proof.
  intros Hnd Hdec Hbad He. rewrite for_await_app.
  erewrite bind_run by (by apply for_await_chunks).
  assert (forall b, Durable.for_await JSON_parse_response aiMessage (bad :: rest) b st
                    = (Thrown e, st, [])) as ->.
  { intros b. simpl. rewrite (proj2 (String.eqb_neq _ _) Hbad). simpl.
    unfold bind, lift. by rewrite He. }
  unfold completion_of, state_of, effects_of; simpl. by rewrite app_nil_r.
Qed.

Lemma memory_for_await_failure (aiMessage : ChatMessage) (chunks fragments : list string)
    (bad : string) (e : Exception) (rest : list string) (buffer : string)
    (st : InMemory.Chat) :
  Forall (fun d => d <> done_marker) chunks ->
  Forall2 (fun d f => JSON_parse_response d = Returned f) chunks fragments ->
  bad <> done_marker ->
  JSON_parse_response bad = Thrown e ->
  InMemory.for_await JSON_parse_response aiMessage (chunks ++ bad :: rest) buffer st =
    (Thrown e, st, map (partial_update aiMessage) (running buffer fragments)).
Proof.
  intros Hnd Hdec Hbad He. rewrite memory_for_await_app.
  erewrite bind_run by (by apply memory_for_await_chunks).
  assert (forall b, InMemory.for_await JSON_parse_response aiMessage (bad :: rest) b st
                    = (Thrown e, st, [])) as ->.
  { intros b. simpl. rewrite (proj2 (String.eqb_neq _ _) Hbad). simpl.
    unfold bind, lift. by rewrite He. }
  unfold completion_of, state_of, effects_of; simpl. by rewrite app_nil_r.
Qed.

End Streams.

(** X6: events that are not the marker persist nothing: whatever they
    hold, and whether their text decodes or the loop throws on one of them,
    the loop leaves log and table (durable server) and log (in-memory
    server) exactly as they were. *)
Theorem continuation_events_persist_nothing
    (JSON_parse_response : string -> Completion string)
    (aiMessage : ChatMessage) (events : list string) (buffer : string)
    (st : Durable.Chat) (mst : InMemory.Chat) :
  Forall (fun d => d <> done_marker) events ->
  state_of (Durable.for_await JSON_parse_response aiMessage events buffer st) = st /\
  state_of (InMemory.for_await JSON_parse_response aiMessage events buffer mst) = mst.
Proof.
  intros Hnd. revert buffer. induction Hnd as [|d events Hd Hnd IH]; intros buffer.
  - done.
  - simpl. rewrite (proj2 (String.eqb_neq d done_marker) Hd). cbn [negb].
    destruct (JSON_parse_response d) as [f|e] eqn:Hf.
    + erewrite !bind_run by reflexivity.
      rewrite !state_of_tuple. apply IH.
    + erewrite !bind_thrown by reflexivity. done.
Qed.

Lemma continuation_events_persist_nothing_witness :
  let st := state_of (Durable.saveMessage (placeholder "ai1") empty_room) in
  state_of (Durable.for_await chunk_response (placeholder "ai1")
              [chunk "a"; "oops"; chunk "b"] "" st) = st.
Proof.
  cbv zeta.
  apply (continuation_events_persist_nothing chunk_response (placeholder "ai1")
           [chunk "a"; "oops"; chunk "b"] ""
           (state_of (Durable.saveMessage (placeholder "ai1") empty_room))
           empty_memory_room).
  repeat (apply Forall_cons; split; [discriminate|]). apply Forall_nil_2.
Defined.

(** X7: when an event of the stream is not the marker, its text does not
    decode, and no marker came before it, the add handler throws what the
    decoder throws; the updates of the fragments before it have been
    broadcast, nothing is broadcast after, and the reply is left persisted
    as the placeholder. *)
Theorem stream_failure_leaves_placeholder
    (JSON_parse_response : string -> Completion string)
    (parsed : ChatMessage) (nanoid8 : string) (chunks fragments : list string)
    (bad : string) (e : Exception) (rest : list string)
    (st : Durable.Chat) (mst : InMemory.Chat) :
  Forall (fun d => d <> done_marker) chunks ->
  Forall2 (fun d f => JSON_parse_response d = Returned f) chunks fragments ->
  bad <> done_marker ->
  JSON_parse_response bad = Thrown e ->
  let ai := placeholder nanoid8 in
  let r := Durable.on_add JSON_parse_response parsed nanoid8
             (chunks ++ bad :: rest) st in
  let mr := InMemory.on_add JSON_parse_response parsed nanoid8
              (chunks ++ bad :: rest) mst in
  completion_of r = Thrown e /\
  state_of r = state_of (Durable.saveMessage ai (state_of (Durable.saveMessage parsed st))) /\
  stored_content nanoid8 (state_of r) = Some indicator /\
  map content (updates_for nanoid8 (effects_of r))
    = map (fun b => b +:+ indicator) (running "" fragments) /\
  completion_of mr = Thrown e /\
  InMemory.messages (state_of mr) = (InMemory.messages mst ++ [parsed]) ++ [ai] /\
  map content (updates_for nanoid8 (effects_of mr))
    = map (fun b => b +:+ indicator) (running "" fragments).
Proof.
  intros Hnd Hdec Hbad He. cbv zeta.
  rewrite on_add_run, memory_on_add_run. cbv zeta.
  rewrite (for_await_failure _ _ chunks fragments bad e) by done.
  rewrite (memory_for_await_failure _ _ chunks fragments bad e) by done.
  unfold completion_of, state_of, effects_of; cbn [fst snd].
  set (ai := placeholder nanoid8). change nanoid8 with (id ai).
  split_and!; try reflexivity.
  - apply (stored_content_saved ai).
  - rewrite updates_for_prelude, updates_for_partial, map_map. reflexivity.
  - rewrite updates_for_memory_prelude, updates_for_partial, map_map. reflexivity.
Qed.

Lemma stream_failure_leaves_placeholder_witness :
  let r := Durable.on_add chunk_response msg_hi "ai1"
             ([chunk "a"] ++ "oops" :: [done_marker]) empty_room in
  completion_of r = Thrown SyntaxError /\
  stored_content "ai1" (state_of r) = Some "..." /\
  map content (updates_for "ai1" (effects_of r)) = ["a..."].
Proof.
  cbv zeta.
  pose proof (stream_failure_leaves_placeholder chunk_response msg_hi "ai1"
    [chunk "a"] ["a"] "oops" SyntaxError [done_marker] empty_room empty_memory_room) as H.
  cbv zeta in H. destruct H as (Hc & _ & Hs & Hu & _).
  - repeat constructor; discriminate.
  - repeat constructor.
  - discriminate.
  - reflexivity.
  - split_and!; [exact Hc | exact Hs | exact Hu].
Defined.





(** ** The two servers side by side *)

Lemma completion_of_tuple {St A} (c : Completion A) (s : St) (t : list Effect) :
  completion_of (c, s, t) = c.
Proof. reflexivity. Qed.

Section Agreement.

Variable JSON_parse_response : string -> Completion string.

Lemma for_await_agree (aiMessage : ChatMessage) (events : list string)
    (base : list ChatMessage) :
  id aiMessage ∉ map id base ->
  forall (buffer c : string) (st : Durable.Chat) (mst : InMemory.Chat),
  Durable.messages st = base ++ [with_content aiMessage c] ->
  InMemory.messages mst = base ++ [with_content aiMessage c] ->
  let r := Durable.for_await JSON_parse_response aiMessage events buffer st in
  let mr := InMemory.for_await JSON_parse_response aiMessage events buffer mst in
  completion_of r = completion_of mr /\
  Durable.messages (state_of r) = InMemory.messages (state_of mr) /\
  without_sql (effects_of r) = effects_of mr.
Proof.
  intros Hnot. cbv zeta.
  induction events as [|d events IH]; intros buffer c st mst Hst Hmst.
  - unfold Durable.for_await, InMemory.for_await, ret.
    rewrite !completion_of_tuple, !state_of_tuple, !effects_of_tuple.
    by rewrite Hst, Hmst.
  - simpl. destruct (negb (String.eqb d done_marker)).
    + destruct (JSON_parse_response d) as [f|e] eqn:Hd.
      * erewrite !bind_run by reflexivity.
        rewrite !completion_of_tuple, !state_of_tuple, !effects_of_tuple.
        destruct (IH (buffer +:+ f) c st mst Hst Hmst) as (Hc & Hs & He).
        split_and!; [done|done|]. simpl. by rewrite He.
      * erewrite !bind_thrown by reflexivity.
        rewrite !completion_of_tuple, !state_of_tuple, !effects_of_tuple.
        by rewrite Hst, Hmst.
    + erewrite (bind_run (Durable.saveMessage _)) by apply saveMessage_run.
      erewrite !bind_run by reflexivity.
      rewrite !completion_of_tuple, !state_of_tuple, !effects_of_tuple.
      match goal with
      | |- context [Durable.for_await _ _ _ _ ?s] => set (st' := s)
      end.
      match goal with
      | |- context [InMemory.for_await _ _ _ _ ?s] => set (mst' := s)
      end.
      destruct (IH buffer buffer st' mst') as (Hc & Hs & He).
      { subst st'. cbn [Durable.messages]. rewrite Hst.
        by apply (save_in_memory_last (with_content aiMessage buffer)). }
      { subst mst'. cbn [InMemory.messages]. rewrite Hmst.
        by rewrite finalize_last. }
      split_and!; [done|done|]. simpl. by rewrite He.
Qed.

End Agreement.

(** X10: on an add event whose message id and generated id are new to the
    log and differ from each other, the two servers agree, whatever the
    stream holds: from equal logs
    they complete alike, leave equal logs, and perform the same broadcasts
    and backend call in the same order; the durable server adds its SQL
    statements only. *)
Theorem servers_agree_on_fresh_add
    (JSON_parse_response : string -> Completion string)
    (parsed : ChatMessage) (nanoid8 : string) (eventStream : list string)
    (st : Durable.Chat) (mst : InMemory.Chat) :
  Durable.messages st = InMemory.messages mst ->
  id parsed ∉ map id (Durable.messages st) ->
  nanoid8 ∉ map id (Durable.messages st) ->
  nanoid8 <> id parsed ->
  let r := Durable.on_add JSON_parse_response parsed nanoid8 eventStream st in
  let mr := InMemory.on_add JSON_parse_response parsed nanoid8 eventStream mst in
  completion_of r = completion_of mr /\
  Durable.messages (state_of r) = InMemory.messages (state_of mr) /\
  without_sql (effects_of r) = effects_of mr.
Proof.
  intros Hlogs Hm Hn Hne. cbv zeta.
  rewrite on_add_run, memory_on_add_run. cbv zeta.
  rewrite !completion_of_tuple, !state_of_tuple, !effects_of_tuple.
  destruct (for_await_agree JSON_parse_response (placeholder nanoid8) eventStream
              (Durable.messages st ++ [parsed])
              ltac:(rewrite map_app; by apply not_elem_of_snoc)
              "" indicator
              (state_of (Durable.saveMessage (placeholder nanoid8)
                           (state_of (Durable.saveMessage parsed st))))
              {| InMemory.messages :=
                   (InMemory.messages mst ++ [parsed]) ++ [placeholder nanoid8] |})
    as (Hc & Hs & He).
  - rewrite !saveMessage_run, !state_of_tuple. cbn [Durable.messages].
    rewrite (save_in_memory_absent parsed) by done.
    rewrite save_in_memory_absent; [done|].
    rewrite map_app. by apply not_elem_of_snoc.
  - cbn [InMemory.messages]. by rewrite Hlogs.
  - split_and!.
    + by rewrite Hc.
    + done.
    + assert (Durable.messages (state_of (Durable.saveMessage parsed st))
              = InMemory.messages mst ++ [parsed]) as ->.
      { rewrite saveMessage_run, state_of_tuple. cbn [Durable.messages].
        rewrite save_in_memory_absent by done. by rewrite Hlogs. }
      unfold without_sql in *. rewrite List.filter_app, He. reflexivity.
Qed.

Lemma servers_agree_on_fresh_add_witness :
  let r := Durable.on_add chunk_response msg_hi "ai1"
             [chunk "a"; done_marker; "oops"] empty_room in
  let mr := InMemory.on_add chunk_response msg_hi "ai1"
              [chunk "a"; done_marker; "oops"] empty_memory_room in
  completion_of r = completion_of mr /\
  Durable.messages (state_of r) = InMemory.messages (state_of mr) /\
  without_sql (effects_of r) = effects_of mr.
Proof.
  apply (servers_agree_on_fresh_add chunk_response msg_hi "ai1"
           [chunk "a"; done_marker; "oops"] empty_room empty_memory_room).
  - reflexivity.
  - simpl. apply not_elem_of_nil.
  - simpl. apply not_elem_of_nil.
  - discriminate.
Defined.

Lemma replace_is_insert (m e : ChatMessage) (log : list ChatMessage) (i : nat) :
  NoDup (map id log) -> log !! i = Some e -> id e = id m ->
  map (fun x => if String.eqb (id x) (id m) then m else x) log = <[i := m]> log.
Proof.
  revert i. induction log as [|x log IH]; intros i Hnd Hi He; [done|].
  simpl in Hnd. apply NoDup_cons in Hnd as [Hx Hnd].
  destruct i as [|i]; simpl in *.
  - injection Hi as ->. rewrite He, String.eqb_refl. f_equal.
    apply replace_absent. by rewrite <- He.
  - destruct (String.eqb_spec (id x) (id m)) as [E|E].
    + exfalso. apply Hx. rewrite E, <- He.
      apply list_elem_of_fmap. exists e. split; [done|]. by eapply list_elem_of_lookup_2.
    + f_equal. by apply IH.
Qed.

(** X11: on a log without two entries of one id, the two servers agree on
    an update event for an id the log holds: both put the message at the
    place of that entry. For an id the log does not hold they part: the
    durable server appends the message, the in-memory server drops it. *)
Theorem servers_agree_on_update_of_known_id (m : ChatMessage)
    (st : Durable.Chat) (mst : InMemory.Chat) :
  Durable.messages st = InMemory.messages mst ->
  NoDup (map id (Durable.messages st)) ->
  let log' := Durable.messages (state_of (Durable.saveMessage m st)) in
  let mlog' := InMemory.messages (state_of (InMemory.on_update m mst)) in
  (id m ∈ map id (Durable.messages st) -> log' = mlog') /\
  (id m ∉ map id (Durable.messages st) -> log' = mlog' ++ [m]).
Proof.
  intros Hlogs Hnd. cbv zeta.
  rewrite saveMessage_run, on_update_run, !state_of_tuple.
  cbn [Durable.messages InMemory.messages]. rewrite <- Hlogs. split.
  - intros Hin. rewrite save_in_memory_present by done.
    destruct (findIndex_present _ _ Hin) as (n & e & -> & Hn & He & _).
    simpl. by eapply replace_is_insert.
  - intros Hnot. rewrite save_in_memory_absent by done.
    by rewrite findIndex_absent.
Qed.

Lemma servers_agree_on_update_of_known_id_witness :
  let st := {| Durable.messages := [msg_hi; msg_yo]; Durable.storage := ∅ |} in
  let mst := {| InMemory.messages := [msg_hi; msg_yo] |} in
  Durable.messages (state_of (Durable.saveMessage msg_hi_edited st))
  = InMemory.messages (state_of (InMemory.on_update msg_hi_edited mst)).
Proof.
  cbv zeta.
  pose proof (servers_agree_on_update_of_known_id msg_hi_edited
    {| Durable.messages := [msg_hi; msg_yo]; Durable.storage := ∅ |}
    {| InMemory.messages := [msg_hi; msg_yo] |} eq_refl) as H.
  cbv zeta in H. destruct H as (Hknown & _).
  - apply (bool_decide_unpack _). vm_compute. exact I.
  - apply Hknown. simpl. left.
Defined.

(** X12: in the in-memory server an update event changes one entry at
    most, the first that has its id: the entries before it have other ids,
    and every other position of the log, later entries with the same id
    included, is left as it was. *)
Theorem on_update_replaces_first_entry_only (m : ChatMessage) (mst : InMemory.Chat) :
  id m ∈ map id (InMemory.messages mst) ->
  let log := InMemory.messages mst in
  let log' := InMemory.messages (state_of (InMemory.on_update m mst)) in
  exists i e,
    log !! i = Some e /\ id e = id m /\
    (forall j y, log !! j = Some y -> j < i -> id y <> id m) /\
    log' !! i = Some m /\
    (forall j, j <> i -> log' !! j = log !! j) /\
    length log' = length log.
Proof.
  intros Hin. cbv zeta. rewrite on_update_run, state_of_tuple. cbn [InMemory.messages].
  destruct (findIndex_present _ _ Hin) as (n & e & -> & Hn & He & Hfirst).
  exists n, e. simpl. split_and!; [done|done|done| | |].
  - apply list_lookup_insert_eq. by eapply lookup_lt_Some.
  - intros j Hj. by apply list_lookup_insert_ne.
  - apply length_insert.
Qed.

Lemma on_update_replaces_first_entry_only_witness :
  let log := [msg_yo; msg_hi; msg_hi] in
  let log' := InMemory.messages
                (state_of (InMemory.on_update msg_hi_edited {| InMemory.messages := log |})) in
  exists i e,
    log !! i = Some e /\ id e = "m1" /\
    (forall j y, log !! j = Some y -> j < i -> id y <> "m1") /\
    log' !! i = Some msg_hi_edited /\
    (forall j, j <> i -> log' !! j = log !! j) /\
    length log' = length log.
Proof.
  apply (on_update_replaces_first_entry_only msg_hi_edited
           {| InMemory.messages := [msg_yo; msg_hi; msg_hi] |}).
  simpl. right. left.
Defined.

(** X13: the in-memory server changes the ids of its log by appending
    only: after a message run the ids are those before, in their order,
    followed by the message id and the generated id when the payload is an
    add event, and by nothing otherwise, whatever the stream holds. *)
Theorem memory_onMessage_ids
    (JSON_parse : string -> Completion Parsed)
    (JSON_parse_response : string -> Completion string)
    (connection message nanoid8 : string) (eventStream : list string)
    (mst : InMemory.Chat) :
  map id (InMemory.messages
    (state_of (InMemory.onMessage JSON_parse JSON_parse_response connection message
                 nanoid8 eventStream mst)))
  = map id (InMemory.messages mst) ++ ids_added (JSON_parse message) nanoid8.
Proof.
  rewrite memory_onMessage_run. unfold ids_added.
  destruct (JSON_parse message) as [[|[m|m|ms]|]|e]; cbv zeta;
    rewrite ?state_of_tuple; rewrite ?app_nil_r; try done.
  - rewrite memory_on_add_run. cbv zeta. rewrite state_of_tuple.
    rewrite memory_for_await_ids. cbn [InMemory.messages].
    rewrite !map_app. simpl. by rewrite <- (assoc_L (++)).
  - apply on_update_ids.
Qed.

(** ** Startup and restart of the durable server *)

Lemma select_rows_ids (table : gmap string Durable.Row) :
  map id (select_rows table) = (map_to_list table).*1.
Proof.
  unfold select_rows. rewrite <- list_fmap_compose. done.
Qed.

Lemma elem_of_select_rows (e : ChatMessage) (table : gmap string Durable.Row) :
  e ∈ select_rows table <->
  exists row, table !! id e = Some row /\ e = row_message (id e) row.
Proof.
  unfold select_rows. rewrite list_elem_of_fmap. split.
  - intros ([i row] & -> & Hin). apply elem_of_map_to_list in Hin.
    exists row. done.
  - intros (row & Hrow & He). exists (id e, row). split; [done|].
    by apply elem_of_map_to_list.
Qed.

Lemma onStart_run (rows : list ChatMessage) (st : Durable.Chat) :
  onStart rows st =
    (Returned tt, {| Durable.messages := rows; Durable.storage := Durable.storage st |}, []).
Proof. reflexivity. Qed.

(** X14: when the rows read at startup are the rows of the table, in
    whatever order, [onStart] leaves the table as it is and a log that has
    one entry per row: no two entries share an id, and log and table are in
    step. *)
Theorem onStart_loads_the_table (rows : list ChatMessage) (st : Durable.Chat) :
  rows ≡ₚ select_rows (Durable.storage st) ->
  let st' := state_of (onStart rows st) in
  Durable.storage st' = Durable.storage st /\
  NoDup (map id (Durable.messages st')) /\
  in_step st' /\
  (forall i, i ∈ map id (Durable.messages st') <-> is_Some (Durable.storage st !! i)).
Proof.
  intros Hrows. cbv zeta. rewrite onStart_run, state_of_tuple.
  cbn [Durable.messages Durable.storage].
  assert (forall i, i ∈ map id rows <-> is_Some (Durable.storage st !! i)) as Hids.
  { intros i. rewrite Hrows, select_rows_ids.
    rewrite list_elem_of_fmap. split.
    - intros ([j row] & -> & Hin). apply elem_of_map_to_list in Hin. by exists row.
    - intros [row Hrow]. exists (i, row). split; [done|].
      by apply elem_of_map_to_list. }
  split_and!.
  - done.
  - rewrite Hrows, select_rows_ids. apply NoDup_fst_map_to_list.
  - split; cbn [Durable.messages Durable.storage].
    + intros e He. rewrite Hrows in He.
      apply elem_of_select_rows in He as (row & Hrow & He).
      unfold stored_content. cbn [Durable.storage]. rewrite Hrow. simpl.
      by rewrite He.
    + intros i Hi. by apply Hids.
  - done.
Qed.

Lemma onStart_loads_the_table_witness :
  let st := state_of (Durable.saveMessage msg_yo
                        (state_of (Durable.saveMessage msg_hi empty_room))) in
  let st' := state_of (onStart (select_rows (Durable.storage st)) st) in
  NoDup (map id (Durable.messages st')) /\ in_step st'.
Proof.
  cbv zeta.
  pose proof (onStart_loads_the_table
    (select_rows (Durable.storage (state_of (Durable.saveMessage msg_yo
       (state_of (Durable.saveMessage msg_hi empty_room))))))
    (state_of (Durable.saveMessage msg_yo
       (state_of (Durable.saveMessage msg_hi empty_room))))) as H.
  cbv zeta in H. destruct H as (_ & Hnd & Hstep & _).
  - reflexivity.
  - split; [exact Hnd | exact Hstep].
Defined.

(** X15: a restart keeps ids and contents. When log and table are in step
    and the rows read at startup are the rows of the table, the log after
    [onStart] has the ids the log had, and for every entry of the old log
    an entry with its id and its content. *)
Theorem restart_keeps_ids_and_contents (rows : list ChatMessage) (st : Durable.Chat) :
  in_step st ->
  rows ≡ₚ select_rows (Durable.storage st) ->
  let st' := state_of (onStart rows st) in
  (forall i, i ∈ map id (Durable.messages st') <-> i ∈ map id (Durable.messages st)) /\
  (forall e, e ∈ Durable.messages st ->
     exists e', e' ∈ Durable.messages st' /\ id e' = id e /\ content e' = content e).
Proof.
  intros [Hlog Hkeys] Hrows. cbv zeta. rewrite onStart_run, state_of_tuple.
  cbn [Durable.messages].
  assert (forall e, e ∈ Durable.messages st ->
            exists e', e' ∈ rows /\ id e' = id e /\ content e' = content e) as Hkeep.
  { intros e He. specialize (Hlog e He). unfold stored_content in Hlog.
    destruct (Durable.storage st !! id e) as [row|] eqn:Hrow; [|done].
    simpl in Hlog. injection Hlog as Hc.
    exists (row_message (id e) row). split_and!; [|done|done].
    rewrite Hrows. apply elem_of_select_rows. by exists row. }
  split; [|done].
  intros i. split.
  - intros Hi. apply list_elem_of_fmap in Hi as (e & -> & He).
    rewrite Hrows in He. apply elem_of_select_rows in He as (row & Hrow & _).
    apply Hkeys. by exists row.
  - intros Hi. apply list_elem_of_fmap in Hi as (e & -> & He).
    destruct (Hkeep e He) as (e' & He' & Hid & _).
    rewrite <- Hid. apply list_elem_of_fmap. by exists e'.
Qed.

Lemma restart_keeps_ids_and_contents_witness :
  let st := state_of (Durable.saveMessage msg_hi_edited
                        (state_of (Durable.saveMessage msg_hi empty_room))) in
  let st' := state_of (onStart (select_rows (Durable.storage st)) st) in
  exists e', e' ∈ Durable.messages st' /\ id e' = "m1" /\ content e' = "hello".
Proof.
  cbv zeta.
  pose proof (restart_keeps_ids_and_contents
    (select_rows (Durable.storage (state_of (Durable.saveMessage msg_hi_edited
       (state_of (Durable.saveMessage msg_hi empty_room))))))
    (state_of (Durable.saveMessage msg_hi_edited
       (state_of (Durable.saveMessage msg_hi empty_room))))) as H.
  cbv zeta in H. destruct H as (_ & Hkeep).
  - apply saveMessage_in_step, saveMessage_in_step. split.
    + intros e He. simpl in He. by apply elem_of_nil in He.
    + intros i [row Hi]. simpl in Hi. by rewrite lookup_empty in Hi.
  - reflexivity.
  - apply (Hkeep msg_hi_edited). simpl. left.
Defined.

(** X16: a restart does not keep the user and the role of a message that
    was upserted over an existing row: after [saveMessage] on an id the
    table holds and a restart, the log entry of that id has the message's
    content with the user and the role of the row, not those of the
    message. *)
Theorem restart_restores_row_user_and_role (m : ChatMessage) (row : Durable.Row)
    (rows : list ChatMessage) (st : Durable.Chat) :
  Durable.storage st !! id m = Some row ->
  let saved := state_of (Durable.saveMessage m st) in
  rows ≡ₚ select_rows (Durable.storage saved) ->
  let st' := state_of (onStart rows saved) in
  let restored := {| id := id m; content := content m;
                     user := Durable.row_user row; role := Durable.row_role row |} in
  restored ∈ Durable.messages st' /\
  (forall e, e ∈ Durable.messages st' -> id e = id m -> e = restored).
Proof.
  intros Hrow. cbv zeta. intros Hrows.
  rewrite onStart_run, state_of_tuple. cbn [Durable.messages].
  assert (Durable.storage (state_of (Durable.saveMessage m st)) !! id m =
    Some {| Durable.row_user := Durable.row_user row;
            Durable.row_role := Durable.row_role row;
            Durable.row_content := content m |}) as Hnew.
  { rewrite saveMessage_run, state_of_tuple. cbn [Durable.storage].
    unfold Durable.sql_upsert. cbn [bind_id upsert_of]. rewrite Hrow.
    by rewrite lookup_insert_eq. }
  split.
  - rewrite Hrows. apply elem_of_select_rows. eexists. split; [exact Hnew|done].
  - intros e He Hid. rewrite Hrows in He.
    apply elem_of_select_rows in He as (row' & Hrow' & ->).
    rewrite Hid in Hrow'. rewrite Hnew in Hrow'. injection Hrow' as <-.
    unfold row_message. cbn [id]. by rewrite Hid.
Qed.

Lemma restart_restores_row_user_and_role_witness :
  let first := state_of (Durable.saveMessage msg_hi empty_room) in
  let saved := state_of (Durable.saveMessage msg_hi_edited first) in
  let st' := state_of (onStart (select_rows (Durable.storage saved)) saved) in
  Durable.messages saved = [msg_hi_edited] /\
  {| id := "m1"; content := "hello"; user := "alice"; role := RoleUser |}
    ∈ Durable.messages st'.
Proof.
  cbv zeta. split; [reflexivity|].
  pose proof (restart_restores_row_user_and_role msg_hi_edited
    {| Durable.row_user := "alice"; Durable.row_role := RoleUser;
       Durable.row_content := "hi" |}
    (select_rows (Durable.storage (state_of (Durable.saveMessage msg_hi_edited
       (state_of (Durable.saveMessage msg_hi empty_room))))))
    (state_of (Durable.saveMessage msg_hi empty_room)) eq_refl) as H.
  cbv zeta in H. destruct H as (Hin & _).
  - reflexivity.
  - exact Hin.
Defined.

(** ** Sequences of store upserts *)

Lemma save_in_memory_keeps (x e : ChatMessage) (log : list ChatMessage) :
  e ∈ log -> id e <> id x -> e ∈ Durable.save_in_memory x log.
Proof.
  intros He Hne. destruct (decide (id x ∈ map id log)) as [H|H].
  - rewrite save_in_memory_present by done. apply list_elem_of_fmap.
    exists e. split; [|done]. by destruct (String.eqb_spec (id e) (id x)).
  - rewrite save_in_memory_absent by done. apply elem_of_app. by left.
Qed.

Lemma save_all_app (ms ms' : list ChatMessage) (st : Durable.Chat) :
  save_all (ms ++ ms') st = save_all ms' (save_all ms st).
Proof. unfold save_all. apply foldl_app. Qed.

Lemma save_all_other_ids (m : ChatMessage) (after : list ChatMessage) (st : Durable.Chat) :
  id m ∉ map id after ->
  stored_content (id m) st = Some (content m) ->
  m ∈ Durable.messages st ->
  (forall e, e ∈ Durable.messages st -> id e = id m -> e = m) ->
  stored_content (id m) (save_all after st) = Some (content m) /\
  m ∈ Durable.messages (save_all after st) /\
  (forall e, e ∈ Durable.messages (save_all after st) -> id e = id m -> e = m).
Proof.
  revert st. induction after as [|x after IH]; intros st Hnot Hs Hin Hall; [done|].
  simpl in Hnot. apply not_elem_of_cons in Hnot as [Hne Hnot].
  change (save_all (x :: after) st)
    with (save_all after (state_of (Durable.saveMessage x st))).
  apply IH; [done| | |]; rewrite saveMessage_run, state_of_tuple.
  - unfold stored_content in *. cbn [Durable.storage].
    by rewrite sql_upsert_other.
  - cbn [Durable.messages]. by apply save_in_memory_keeps.
  - cbn [Durable.messages]. intros e He Hid. apply Hall; [|done].
    eapply save_in_memory_other; [exact He|]. by rewrite Hid.
Qed.

(** X17: the last upsert of an id decides what is stored for it: after a
    sequence of store upserts, the table holds the content of the last
    message upserted with a given id, and the log holds that message, all
    fields, as its only entry of that id. *)
Theorem last_upsert_wins (before after : list ChatMessage) (m : ChatMessage)
    (st : Durable.Chat) :
  id m ∉ map id after ->
  let st' := save_all (before ++ m :: after) st in
  stored_content (id m) st' = Some (content m) /\
  m ∈ Durable.messages st' /\
  (forall e, e ∈ Durable.messages st' -> id e = id m -> e = m).
Proof.
  intros Hnot. cbv zeta. rewrite save_all_app.
  change (save_all (m :: after) (save_all before st))
    with (save_all after (state_of (Durable.saveMessage m (save_all before st)))).
  apply save_all_other_ids; [done| | |].
  - apply stored_content_saved.
  - rewrite saveMessage_run. apply save_in_memory_entries.
  - rewrite saveMessage_run. apply save_in_memory_entries.
Qed.

Lemma last_upsert_wins_witness :
  let st' := save_all ([msg_hi] ++ msg_hi_edited :: [msg_yo]) empty_room in
  stored_content "m1" st' = Some "hello" /\
  msg_hi_edited ∈ Durable.messages st' /\
  (forall e, e ∈ Durable.messages st' -> id e = "m1" -> e = msg_hi_edited).
Proof.
  apply (last_upsert_wins [msg_hi] [msg_yo] msg_hi_edited empty_room).
  simpl. rewrite list_elem_of_singleton. discriminate.
Defined.

Lemma sql_upsert_lookup (q : SqlUpsert) (table : gmap string Durable.Row) :
  Durable.sql_upsert q table !! bind_id q =
    Some match table !! bind_id q with
         | Some row => {| Durable.row_user := Durable.row_user row;
                          Durable.row_role := Durable.row_role row;
                          Durable.row_content := bind_conflict_content q |}
         | None => {| Durable.row_user := bind_user q;
                      Durable.row_role := bind_role q;
                      Durable.row_content := bind_content q |}
         end.
Proof.
  unfold Durable.sql_upsert. destruct (table !! bind_id q); by rewrite lookup_insert_eq.
Qed.

Lemma sql_upsert_commute (q q' : SqlUpsert) (table : gmap string Durable.Row) :
  bind_id q <> bind_id q' ->
  Durable.sql_upsert q (Durable.sql_upsert q' table)
  = Durable.sql_upsert q' (Durable.sql_upsert q table).
Proof.
  intros Hne. apply map_eq. intros i.
  destruct (decide (i = bind_id q)) as [->|Hq].
  - rewrite sql_upsert_lookup, (sql_upsert_other q') by done.
    rewrite (sql_upsert_other q') by done. by rewrite sql_upsert_lookup.
  - rewrite (sql_upsert_other q) by done.
    destruct (decide (i = bind_id q')) as [->|Hq'].
    + rewrite !sql_upsert_lookup. by rewrite (sql_upsert_other q) by done.
    + by rewrite !sql_upsert_other by done.
Qed.

Lemma replace_commute (a b : ChatMessage) (log : list ChatMessage) :
  id a <> id b ->
  map (fun x => if String.eqb (id x) (id a) then a else x)
      (map (fun x => if String.eqb (id x) (id b) then b else x) log)
  = map (fun x => if String.eqb (id x) (id b) then b else x)
        (map (fun x => if String.eqb (id x) (id a) then a else x) log).
Proof.
  intros Hne. rewrite !map_map. apply map_ext. intros x. simpl.
  destruct (String.eqb_spec (id x) (id a)) as [Ea|Ea];
    destruct (String.eqb_spec (id x) (id b)) as [Eb|Eb]; simpl;
    repeat (match goal with
            | |- context [String.eqb ?u ?v] => destruct (String.eqb_spec u v)
            end; simpl); congruence.
Qed.

(** X18: store upserts of two different ids do not interfere. In either
    order they leave the same table, and when the log already holds both
    ids they leave the same log; only when an id is new does the order
    show, as the order of the appended entries. *)
Theorem upserts_of_different_ids_commute (a b : ChatMessage) (st : Durable.Chat) :
  id a <> id b ->
  let ab := state_of (Durable.saveMessage b (state_of (Durable.saveMessage a st))) in
  let ba := state_of (Durable.saveMessage a (state_of (Durable.saveMessage b st))) in
  Durable.storage ab = Durable.storage ba /\
  (id a ∈ map id (Durable.messages st) -> id b ∈ map id (Durable.messages st) ->
     ab = ba) /\
  (id a ∉ map id (Durable.messages st) -> id b ∉ map id (Durable.messages st) ->
     Durable.messages ab = Durable.messages st ++ [a; b] /\
     Durable.messages ba = Durable.messages st ++ [b; a]).
Proof.
  intros Hne. cbv zeta. rewrite !saveMessage_run, !state_of_tuple.
  cbn [Durable.messages Durable.storage].
  assert (Durable.sql_upsert (upsert_of b) (Durable.sql_upsert (upsert_of a) (Durable.storage st))
          = Durable.sql_upsert (upsert_of a) (Durable.sql_upsert (upsert_of b) (Durable.storage st)))
    as Htable.
  { apply sql_upsert_commute. simpl. congruence. }
  split_and!.
  - done.
  - intros Ha Hb. rewrite Htable. f_equal.
    rewrite (save_in_memory_present a) by done.
    rewrite (save_in_memory_present b (Durable.messages st)) by done.
    rewrite !save_in_memory_present by (by rewrite replace_ids).
    apply replace_commute. congruence.
  - intros Ha Hb.
    rewrite (save_in_memory_absent a) by done.
    rewrite (save_in_memory_absent b (Durable.messages st)) by done.
    rewrite !save_in_memory_absent
      by (rewrite map_app; apply not_elem_of_snoc; [done|congruence]).
    by rewrite <- !(assoc_L (++)).
Qed.

Lemma upserts_of_different_ids_commute_witness :
  let ab := state_of (Durable.saveMessage msg_yo
                        (state_of (Durable.saveMessage msg_hi empty_room))) in
  let ba := state_of (Durable.saveMessage msg_hi
                        (state_of (Durable.saveMessage msg_yo empty_room))) in
  Durable.storage ab = Durable.storage ba /\
  Durable.messages ab = [msg_hi; msg_yo] /\
  Durable.messages ba = [msg_yo; msg_hi].
Proof.
  cbv zeta.
  pose proof (upserts_of_different_ids_commute msg_hi msg_yo empty_room) as H.
  cbv zeta in H. destruct H as (Ht & _ & Hnew).
  - discriminate.
  - destruct Hnew as (Hab & Hba).
    + simpl. apply not_elem_of_nil.
    + simpl. apply not_elem_of_nil.
    + split_and!; [exact Ht | exact Hab | exact Hba].
Defined.

(** ** The store upsert and the push, side by side *)



(** ** Sequences of add events, with and without fresh reply ids *)

Section AddRuns.

Variable JSON_parse_response : string -> Completion string.





End AddRuns.




(** ** Payloads of any shape *)

Section UntypedRuns.

Context `{Untyped.JsValues}.
Variable Table : Type.
Variable exec_upsert : Untyped.SqlBindings -> Table -> Completion Table.
Variable JSON_parse : string -> Completion Untyped.Parsed.
Variable JSON_parse_response : string -> Completion string.

Lemma untyped_bind_run {St A B} (c : Untyped.Handler St A)
    (k : A -> Untyped.Handler St B) s a s1 t1 :
  c s = (Returned a, s1, t1) ->
  Untyped.bind c k s =
    (Untyped.completion_of (k a s1), Untyped.state_of (k a s1),
     t1 ++ Untyped.effects_of (k a s1)).
Proof.
  intros E. unfold Untyped.bind. rewrite E. by destruct (k a s1) as [[r s2] t2].
Qed.

Lemma untyped_bind_thrown {St A B} (c : Untyped.Handler St A)
    (k : A -> Untyped.Handler St B) s e s1 t1 :
  c s = (Thrown e, s1, t1) -> Untyped.bind c k s = (Thrown e, s1, t1).
Proof. intros E. unfold Untyped.bind. by rewrite E. Qed.

Lemma untyped_saveMessage_run (message : Untyped.Obj) (st : Untyped.Chat Table) :
  Untyped.saveMessage Table exec_upsert message st =
    let log := Untyped.save_in_memory message (Untyped.messages Table st) in
    match exec_upsert (Untyped.bindings_of message) (Untyped.storage Table st) with
    | Returned table =>
        (Returned tt, {| Untyped.messages := log; Untyped.storage := table |},
         [Untyped.SqlExec (Untyped.bindings_of message)])
    | Thrown e =>
        (Thrown e, {| Untyped.messages := log; Untyped.storage := Untyped.storage Table st |},
         [Untyped.SqlExec (Untyped.bindings_of message)])
    end.
Proof.
  unfold Untyped.saveMessage, Untyped.sql_exec, Untyped.bind, Untyped.get,
    Untyped.put, Untyped.emit, Untyped.lift. simpl.
  by destruct (exec_upsert _ _).
Qed.

Lemma untyped_memory_on_add_run (parsed : Untyped.Obj) (nanoid8 : string)
    (eventStream : list string) (log : list Untyped.Obj) :
  let ai := Untyped.placeholder nanoid8 in
  let loop := Untyped.memory_for_await JSON_parse_response ai eventStream ""
                ((log ++ [parsed]) ++ [ai]) in
  Untyped.memory_on_add JSON_parse_response parsed nanoid8 eventStream log =
    (discard (Untyped.completion_of loop), Untyped.state_of loop,
     [Untyped.Broadcast (Untyped.Stringify (Untyped.Add ai)) [];
      Untyped.AiRun model_name (map Untyped.to_prompt (log ++ [parsed]))]
     ++ Untyped.effects_of loop).
Proof.
  cbv zeta. unfold Untyped.memory_on_add.
  unfold Untyped.bind at 1. unfold Untyped.get at 1.
  unfold Untyped.bind at 1. unfold Untyped.put at 1.
  unfold Untyped.bind at 1. unfold Untyped.memory_broadcastMessage at 1, Untyped.emit at 1.
  unfold Untyped.bind at 1. unfold Untyped.get at 1.
  unfold Untyped.bind at 1. unfold Untyped.emit at 1.
  unfold Untyped.bind at 1. unfold Untyped.get at 1.
  unfold Untyped.bind at 1. unfold Untyped.put at 1.
  unfold Untyped.bind at 1.
  destruct (Untyped.memory_for_await _ _ _ _ _) as [[[b|e] s] t];
    unfold Untyped.ret, Untyped.state_of, Untyped.completion_of, Untyped.effects_of; cbn;
    rewrite ?app_nil_r; reflexivity.
Qed.

Lemma untyped_on_add_run (parsed : Untyped.Obj) (nanoid8 : string)
    (eventStream : list string) (st : Untyped.Chat Table) :
  let ai := Untyped.placeholder nanoid8 in
  let log := Untyped.save_in_memory parsed (Untyped.messages Table st) in
  Untyped.on_add Table exec_upsert JSON_parse_response parsed nanoid8 eventStream st =
    match exec_upsert (Untyped.bindings_of parsed) (Untyped.storage Table st) with
    | Thrown e =>
        (Thrown e, {| Untyped.messages := log; Untyped.storage := Untyped.storage Table st |},
         [Untyped.SqlExec (Untyped.bindings_of parsed)])
    | Returned table =>
        let st1 := {| Untyped.messages := log; Untyped.storage := table |} in
        let rest :=
          Untyped.bind (Untyped.saveMessage Table exec_upsert ai)
            (fun _ => Untyped.bind
               (Untyped.for_await Table exec_upsert JSON_parse_response ai eventStream "")
               (fun _ => Untyped.ret tt)) st1 in
        (Untyped.completion_of rest, Untyped.state_of rest,
         [Untyped.SqlExec (Untyped.bindings_of parsed);
          Untyped.Broadcast (Untyped.Stringify (Untyped.Add ai)) [];
          Untyped.AiRun model_name (map Untyped.to_prompt log)]
         ++ Untyped.effects_of rest)
    end.
Proof.
  cbv zeta. unfold Untyped.on_add.
  pose proof (untyped_saveMessage_run parsed st) as Hsave. cbv zeta in Hsave.
  destruct (exec_upsert (Untyped.bindings_of parsed) (Untyped.storage Table st))
    as [table|e].
  - erewrite untyped_bind_run by exact Hsave.
    erewrite untyped_bind_run by reflexivity.
    erewrite untyped_bind_run by reflexivity.
    erewrite untyped_bind_run by reflexivity.
    unfold Untyped.completion_of, Untyped.state_of, Untyped.effects_of. reflexivity.
  - by erewrite untyped_bind_thrown by exact Hsave.
Qed.

End UntypedRuns.

Section UntypedPayloads.

Context `{Untyped.JsValues}.
Variable Table : Type.
Variable exec_upsert : Untyped.SqlBindings -> Table -> Completion Table.
Variable JSON_parse : string -> Completion Untyped.Parsed.
Variable JSON_parse_response : string -> Completion string.

(** C3, as the code has it: for every inbound payload the raw bytes are
    relayed first, to every participant. What follows is decided by the
    parse and by the [type] tag alone, never by the rest of the shape.
    Text that is not JSON and [null] make the handler throw after the
    relay, with the room unchanged; a value whose tag is neither add nor
    update is skipped silently, with the room unchanged. A value whose tag
    is update or add is processed as that event whatever its other fields
    hold: for update the store operation runs on it; for add the object is
    stored, and the placeholder is broadcast and the backend called with a
    prompt that includes it (in the durable server once the SQL engine has
    taken the bindings; if the engine throws on them, the handler throws
    with the object already in the log). *)
Theorem payload_is_handled_by_its_tag
    (connection message nanoid8 : string) (eventStream : list string)
    (st : Untyped.Chat Table) (log : list Untyped.Obj) :
  let relay := Untyped.Broadcast (Untyped.Raw message) [] in
  let ai := Untyped.placeholder nanoid8 in
  let r := Untyped.onMessage Table exec_upsert JSON_parse JSON_parse_response
             connection message nanoid8 eventStream st in
  let mr := Untyped.memory_onMessage JSON_parse JSON_parse_response
              connection message nanoid8 eventStream log in
  (exists rest, Untyped.effects_of r = relay :: rest) /\
  (exists rest, Untyped.effects_of mr = relay :: rest) /\
  ((forall tag o, JSON_parse message <> Returned (Untyped.ParsedTagged tag o)) ->
     r = (untagged_completion (JSON_parse message), st, [relay]) /\
     mr = (untagged_completion (JSON_parse message), log, [relay])) /\
  (forall o, JSON_parse message = Returned (Untyped.ParsedTagged Untyped.TagUpdate o) ->
     mr = (Returned tt,
           Untyped.assign_at (Untyped.findIndex (Untyped.id o) log) o log, [relay]) /\
     Untyped.messages Table (Untyped.state_of r)
       = Untyped.save_in_memory o (Untyped.messages Table st) /\
     Untyped.effects_of r = [relay; Untyped.SqlExec (Untyped.bindings_of o)] /\
     Untyped.completion_of r
       = discard (exec_upsert (Untyped.bindings_of o) (Untyped.storage Table st))) /\
  (forall o, JSON_parse message = Returned (Untyped.ParsedTagged Untyped.TagAdd o) ->
     let loop := Untyped.memory_for_await JSON_parse_response ai eventStream ""
                   ((log ++ [o]) ++ [ai]) in
     mr = (discard (Untyped.completion_of loop), Untyped.state_of loop,
           [relay;
            Untyped.Broadcast (Untyped.Stringify (Untyped.Add ai)) [];
            Untyped.AiRun model_name (map Untyped.to_prompt (log ++ [o]))]
           ++ Untyped.effects_of loop) /\
     (forall e,
        exec_upsert (Untyped.bindings_of o) (Untyped.storage Table st) = Thrown e ->
        r = (Thrown e,
             {| Untyped.messages := Untyped.save_in_memory o (Untyped.messages Table st);
                Untyped.storage := Untyped.storage Table st |},
             [relay; Untyped.SqlExec (Untyped.bindings_of o)])) /\
     (forall table,
        exec_upsert (Untyped.bindings_of o) (Untyped.storage Table st) = Returned table ->
        exists rest,
          Untyped.effects_of r =
            [relay;
             Untyped.SqlExec (Untyped.bindings_of o);
             Untyped.Broadcast (Untyped.Stringify (Untyped.Add ai)) [];
             Untyped.AiRun model_name
               (map Untyped.to_prompt
                  (Untyped.save_in_memory o (Untyped.messages Table st)))]
            ++ rest)).
Proof.
  cbv zeta.
  assert (Untyped.onMessage Table exec_upsert JSON_parse JSON_parse_response
            connection message nanoid8 eventStream st =
          match JSON_parse message with
          | Thrown e => (Thrown e, st, [Untyped.Broadcast (Untyped.Raw message) []])
          | Returned Untyped.ParsedNull =>
              (Thrown TypeError, st, [Untyped.Broadcast (Untyped.Raw message) []])
          | Returned (Untyped.ParsedTagged Untyped.TagAdd m) =>
              let x := Untyped.on_add Table exec_upsert JSON_parse_response m nanoid8
                         eventStream st in
              (Untyped.completion_of x, Untyped.state_of x,
               Untyped.Broadcast (Untyped.Raw message) [] :: Untyped.effects_of x)
          | Returned (Untyped.ParsedTagged Untyped.TagUpdate m) =>
              let x := Untyped.saveMessage Table exec_upsert m st in
              (Untyped.completion_of x, Untyped.state_of x,
               Untyped.Broadcast (Untyped.Raw message) [] :: Untyped.effects_of x)
          | Returned Untyped.ParsedOther =>
              (Returned tt, st, [Untyped.Broadcast (Untyped.Raw message) []])
          end) as Hr.
  { unfold Untyped.onMessage. erewrite untyped_bind_run by reflexivity.
    destruct (JSON_parse message) as [[|[|] m|]|e] eqn:E; try reflexivity.
    - erewrite untyped_bind_run by reflexivity. reflexivity.
    - erewrite untyped_bind_run by reflexivity. reflexivity. }
  assert (Untyped.memory_onMessage JSON_parse JSON_parse_response
            connection message nanoid8 eventStream log =
          match JSON_parse message with
          | Thrown e => (Thrown e, log, [Untyped.Broadcast (Untyped.Raw message) []])
          | Returned Untyped.ParsedNull =>
              (Thrown TypeError, log, [Untyped.Broadcast (Untyped.Raw message) []])
          | Returned (Untyped.ParsedTagged Untyped.TagAdd m) =>
              let x := Untyped.memory_on_add JSON_parse_response m nanoid8
                         eventStream log in
              (Untyped.completion_of x, Untyped.state_of x,
               Untyped.Broadcast (Untyped.Raw message) [] :: Untyped.effects_of x)
          | Returned (Untyped.ParsedTagged Untyped.TagUpdate m) =>
              (Returned tt,
               Untyped.assign_at (Untyped.findIndex (Untyped.id m) log) m log,
               [Untyped.Broadcast (Untyped.Raw message) []])
          | Returned Untyped.ParsedOther =>
              (Returned tt, log, [Untyped.Broadcast (Untyped.Raw message) []])
          end) as Hmr.
  { unfold Untyped.memory_onMessage. erewrite untyped_bind_run by reflexivity.
    destruct (JSON_parse message) as [[|[|] m|]|e] eqn:E; try reflexivity.
    erewrite untyped_bind_run by reflexivity. reflexivity. }
  rewrite Hr, Hmr. clear Hr Hmr. split_and!.
  - destruct (JSON_parse message) as [[|[|] m|]|e]; by eexists.
  - destruct (JSON_parse message) as [[|[|] m|]|e]; by eexists.
  - intros Hno. destruct (JSON_parse message) as [[|tag m|]|e]; try done.
    by destruct (Hno tag m).
  - intros o ->. cbv zeta. rewrite (untyped_saveMessage_run Table exec_upsert). cbv zeta.
    destruct (exec_upsert _ _); done.
  - intros o ->. cbv zeta. split_and!.
    + rewrite untyped_memory_on_add_run. cbv zeta. reflexivity.
    + intros e He. rewrite (untyped_on_add_run Table exec_upsert). cbv zeta.
      rewrite He. reflexivity.
    + intros table Ht. rewrite (untyped_on_add_run Table exec_upsert). cbv zeta.
      rewrite Ht. cbv zeta. by eexists.
Qed.

End UntypedPayloads.

Lemma payload_is_handled_by_its_tag_witness :
  let ai := @Untyped.placeholder sample_values "ai1" in
  Untyped.memory_onMessage untyped_probe_parse chunk_response "c1" "{}" "ai1" [] []
    = (Returned tt, [], [Untyped.Broadcast (Untyped.Raw "{}") []]) /\
  Untyped.memory_onMessage untyped_probe_parse chunk_response "c1" bare_add_text "ai1"
      [chunk "a"; done_marker] []
    = (Returned tt,
       [bare_add; Untyped.with_content ai (Some "a")],
       [Untyped.Broadcast (Untyped.Raw bare_add_text) [];
        Untyped.Broadcast (Untyped.Stringify (Untyped.Add ai)) [];
        Untyped.AiRun model_name [(js_undefined, js_undefined)];
        Untyped.Broadcast
          (Untyped.Stringify (Untyped.Update (Untyped.with_content ai (Some "a...")))) [];
        Untyped.Broadcast
          (Untyped.Stringify (Untyped.Update (Untyped.with_content ai (Some "a")))) []]) /\
  Untyped.onMessage sample_table sample_exec untyped_probe_parse chunk_response
      "c1" bare_add_text "ai1" [chunk "a"; done_marker] untyped_empty_room
    = (Thrown TypeError,
       @Untyped.mkChat sample_values sample_table [bare_add] ∅,
       [Untyped.Broadcast (Untyped.Raw bare_add_text) [];
        Untyped.SqlExec (Untyped.bindings_of bare_add)]).
Proof.
  cbv zeta.
  pose proof (@payload_is_handled_by_its_tag sample_values sample_table sample_exec
    untyped_probe_parse chunk_response "c1" "{}" "ai1" [] untyped_empty_room [])
    as H0.
  pose proof (@payload_is_handled_by_its_tag sample_values sample_table sample_exec
    untyped_probe_parse chunk_response "c1" bare_add_text "ai1"
    [chunk "a"; done_marker] untyped_empty_room []) as H1.
  cbv zeta in H0, H1.
  destruct H0 as (_ & _ & Hskip & _ & _).
  destruct H1 as (_ & _ & _ & _ & Hadd).
  destruct Hskip as (_ & Hm0).
  { intros tag o. vm_compute. discriminate. }
  destruct (Hadd bare_add eq_refl) as (Hm1 & Hthrow & _).
  split_and!.
  - rewrite Hm0. reflexivity.
  - rewrite Hm1. reflexivity.
  - rewrite (Hthrow TypeError eq_refl). reflexivity.
Defined.

(** C3, as stated, fails in two ways. The payload [hello], which is not
    JSON, is relayed and then makes the handler throw. The payload
    [{"type":"add"}], an object with the tag of an event and none of its
    fields, is relayed and then processed, not skipped: the in-memory
    server stores the object, broadcasts a placeholder and calls the
    backend; the durable server stores the object in its log before it
    hands the bindings to the engine. *)
Lemma malformed_payload_throws_or_is_processed :
  let ai := @Untyped.placeholder sample_values "ai1" in
  let thrown := Untyped.memory_onMessage untyped_probe_parse chunk_response
                  "c1" "hello" "ai1" [] [] in
  let processed := Untyped.memory_onMessage untyped_probe_parse chunk_response
                     "c1" bare_add_text "ai1" [] [] in
  let saved := Untyped.onMessage sample_table sample_exec untyped_probe_parse
                 chunk_response "c1" bare_add_text "ai1" [] untyped_empty_room in
  thrown = (Thrown SyntaxError, [], [Untyped.Broadcast (Untyped.Raw "hello") []]) /\
  Untyped.completion_of thrown <> Returned tt /\
  processed = (Returned tt, [bare_add; ai],
               [Untyped.Broadcast (Untyped.Raw bare_add_text) [];
                Untyped.Broadcast (Untyped.Stringify (Untyped.Add ai)) [];
                Untyped.AiRun model_name [(js_undefined, js_undefined)]]) /\
  Untyped.state_of processed <> [] /\
  Untyped.messages sample_table (Untyped.state_of saved) = [bare_add] /\
  Untyped.messages sample_table (Untyped.state_of saved)
    <> Untyped.messages sample_table untyped_empty_room.
Proof.
  cbv zeta. split_and!; try reflexivity; vm_compute; discriminate.
Qed.

Section UntypedMessageRuns.

Context `{Untyped.JsValues}.
Variable Table : Type.
Variable exec_upsert : Untyped.SqlBindings -> Table -> Completion Table.
Variable JSON_parse : string -> Completion Untyped.Parsed.
Variable JSON_parse_response : string -> Completion string.

Lemma untyped_onMessage_run (connection message nanoid8 : string)
    (eventStream : list string) (st : Untyped.Chat Table) :
  Untyped.onMessage Table exec_upsert JSON_parse JSON_parse_response
    connection message nanoid8 eventStream st =
  match JSON_parse message with
  | Thrown e => (Thrown e, st, [Untyped.Broadcast (Untyped.Raw message) []])
  | Returned Untyped.ParsedNull =>
      (Thrown TypeError, st, [Untyped.Broadcast (Untyped.Raw message) []])
  | Returned (Untyped.ParsedTagged Untyped.TagAdd m) =>
      let x := Untyped.on_add Table exec_upsert JSON_parse_response m nanoid8
                 eventStream st in
      (Untyped.completion_of x, Untyped.state_of x,
       Untyped.Broadcast (Untyped.Raw message) [] :: Untyped.effects_of x)
  | Returned (Untyped.ParsedTagged Untyped.TagUpdate m) =>
      let x := Untyped.saveMessage Table exec_upsert m st in
      (Untyped.completion_of x, Untyped.state_of x,
       Untyped.Broadcast (Untyped.Raw message) [] :: Untyped.effects_of x)
  | Returned Untyped.ParsedOther =>
      (Returned tt, st, [Untyped.Broadcast (Untyped.Raw message) []])
  end.
Proof.
  unfold Untyped.onMessage. erewrite untyped_bind_run by reflexivity.
  destruct (JSON_parse message) as [[|[|] m|]|e] eqn:E; try reflexivity.
  - erewrite untyped_bind_run by reflexivity. reflexivity.
  - erewrite untyped_bind_run by reflexivity. reflexivity.
Qed.

Lemma untyped_memory_onMessage_run (connection message nanoid8 : string)
    (eventStream : list string) (log : list Untyped.Obj) :
  Untyped.memory_onMessage JSON_parse JSON_parse_response
    connection message nanoid8 eventStream log =
  match JSON_parse message with
  | Thrown e => (Thrown e, log, [Untyped.Broadcast (Untyped.Raw message) []])
  | Returned Untyped.ParsedNull =>
      (Thrown TypeError, log, [Untyped.Broadcast (Untyped.Raw message) []])
  | Returned (Untyped.ParsedTagged Untyped.TagAdd m) =>
      let x := Untyped.memory_on_add JSON_parse_response m nanoid8 eventStream log in
      (Untyped.completion_of x, Untyped.state_of x,
       Untyped.Broadcast (Untyped.Raw message) [] :: Untyped.effects_of x)
  | Returned (Untyped.ParsedTagged Untyped.TagUpdate m) =>
      (Returned tt, Untyped.assign_at (Untyped.findIndex (Untyped.id m) log) m log,
       [Untyped.Broadcast (Untyped.Raw message) []])
  | Returned Untyped.ParsedOther =>
      (Returned tt, log, [Untyped.Broadcast (Untyped.Raw message) []])
  end.
Proof.
  unfold Untyped.memory_onMessage. erewrite untyped_bind_run by reflexivity.
  destruct (JSON_parse message) as [[|[|] m|]|e] eqn:E; try reflexivity.
  erewrite untyped_bind_run by reflexivity. reflexivity.
Qed.

End UntypedMessageRuns.

(** ** The typed servers inside the untyped handlers *)

Section Refinement.

Context `{Untyped.JsValues}.

(** [===] on two strings compares their text. *)
Hypothesis strict_eq_str :
  forall a b, Untyped.strict_eq (Untyped.str a) (Untyped.str b) = String.eqb a b.

Variable JSON_parse : string -> Completion Parsed.
Variable JSON_parse_response : string -> Completion string.

Lemma embed_finalize (i buffer : string) (log : list ChatMessage) :
  Untyped.finalize (Untyped.str i) buffer (map embed_obj log)
  = map embed_obj (InMemory.finalize i buffer log).
Proof.
  unfold Untyped.finalize, InMemory.finalize. rewrite !map_map.
  apply map_ext. intros m. cbn [Untyped.id embed_obj]. rewrite strict_eq_str.
  by destruct (String.eqb (id m) i).
Qed.

Lemma embed_findIndex (i : string) (log : list ChatMessage) :
  Untyped.findIndex (Untyped.str i) (map embed_obj log) = InMemory.findIndex i log.
Proof.
  unfold Untyped.findIndex, InMemory.findIndex.
  induction log as [|m log IH]; [done|].
  cbn [map list_find]. cbn [Untyped.id embed_obj].
  destruct (decide (id m = i)) as [E|E].
  - rewrite decide_True; [done|]. rewrite strict_eq_str. by apply String.eqb_eq.
  - rewrite decide_False.
    + rewrite <- !option_fmap_compose. 
      destruct (list_find _ (map embed_obj log)) as [[n x]|];
        destruct (list_find _ log) as [[n' x']|]; simpl in *; congruence.
    + rewrite strict_eq_str. intros Heq. by apply String.eqb_eq in Heq.
Qed.

Lemma embed_assign_at (index : option nat) (m : ChatMessage) (log : list ChatMessage) :
  Untyped.assign_at index (embed_obj m) (map embed_obj log)
  = map embed_obj (InMemory.assign_at index m log).
Proof.
  destruct index as [n|]; [|done]. simpl. by rewrite list_fmap_insert.
Qed.

Lemma embed_memory_for_await (aiMessage : ChatMessage) (events : list string)
    (buffer : string) (st : InMemory.Chat) :
  Untyped.memory_for_await JSON_parse_response (embed_obj aiMessage) events buffer
    (map embed_obj (InMemory.messages st))
  = embed_memory_run (InMemory.for_await JSON_parse_response aiMessage events buffer st).
Proof.
  revert buffer st. induction events as [|d events IH]; intros buffer st; [done|].
  cbn [Untyped.memory_for_await InMemory.for_await].
  destruct (negb (String.eqb d done_marker)).
  - destruct (JSON_parse_response d) as [f|e] eqn:Hd.
    + erewrite !bind_run by reflexivity.
      erewrite !untyped_bind_run by reflexivity.
      rewrite IH. reflexivity.
    + erewrite bind_thrown by reflexivity.
      erewrite untyped_bind_thrown by reflexivity. reflexivity.
  - erewrite !bind_run by reflexivity.
    erewrite !untyped_bind_run by reflexivity.
    rewrite !state_of_tuple.
    change (Untyped.id (embed_obj aiMessage)) with (Untyped.str (id aiMessage)).
    rewrite embed_finalize.
    pose proof (IH buffer {| InMemory.messages :=
      InMemory.finalize (id aiMessage) buffer (InMemory.messages st) |}) as IH'.
    cbn [InMemory.messages] in IH'. rewrite IH'. reflexivity.
Qed.

Lemma embed_to_prompt (log : list ChatMessage) :
  map Untyped.to_prompt (map embed_obj log) = map embed_prompt (map to_prompt log).
Proof. rewrite !map_map. by apply map_ext. Qed.

Lemma embed_memory_on_add (parsed : ChatMessage) (nanoid8 : string)
    (eventStream : list string) (st : InMemory.Chat) :
  Untyped.memory_on_add JSON_parse_response (embed_obj parsed) nanoid8 eventStream
    (map embed_obj (InMemory.messages st))
  = embed_memory_run (InMemory.on_add JSON_parse_response parsed nanoid8 eventStream st).
Proof.
  rewrite untyped_memory_on_add_run, memory_on_add_run. cbv zeta.
  change (Untyped.placeholder nanoid8) with (embed_obj (placeholder nanoid8)).
  change [embed_obj parsed] with (map embed_obj [parsed]).
  change [embed_obj (placeholder nanoid8)] with (map embed_obj [placeholder nanoid8]).
  rewrite <- !map_app.
  pose proof (embed_memory_for_await (placeholder nanoid8) eventStream ""
    {| InMemory.messages := (InMemory.messages st ++ [parsed]) ++ [placeholder nanoid8] |})
    as Hloop.
  cbn [InMemory.messages] in Hloop. rewrite Hloop.
  unfold embed_memory_run. rewrite !completion_of_tuple, !state_of_tuple, !effects_of_tuple.
  unfold Untyped.completion_of, Untyped.state_of, Untyped.effects_of. cbn [fst snd].
  rewrite embed_to_prompt, map_app. reflexivity.
Qed.

Lemma embed_memory_onMessage (connection message nanoid8 : string)
    (eventStream : list string) (st : InMemory.Chat) :
  Untyped.memory_onMessage (fun s => embed_parsed (JSON_parse s)) JSON_parse_response
    connection message nanoid8 eventStream (map embed_obj (InMemory.messages st))
  = embed_memory_run (InMemory.onMessage JSON_parse JSON_parse_response connection
                        message nanoid8 eventStream st).
Proof.
  rewrite memory_onMessage_run, untyped_memory_onMessage_run.
  destruct (JSON_parse message) as [[|[m|m|ms]|]|e] eqn:E; cbn [embed_parsed];
    try reflexivity.
  - cbv zeta. rewrite embed_memory_on_add. reflexivity.
  - rewrite on_update_run, state_of_tuple. unfold embed_memory_run.
    rewrite completion_of_tuple, state_of_tuple, effects_of_tuple.
    cbn [InMemory.messages Untyped.id embed_obj].
    by rewrite embed_findIndex, embed_assign_at.
Qed.

Variable Table : Type.
Variable exec_upsert : Untyped.SqlBindings -> Table -> Completion Table.
Variable abs : gmap string Durable.Row -> Table.

(** On string bindings the engine does what the upsert statement says. *)
Hypothesis exec_typed :
  forall q table,
    exec_upsert (embed_bindings q) (abs table) = Returned (abs (Durable.sql_upsert q table)).

Lemma embed_find (i : string) (log : list ChatMessage) :
  find (fun x => Untyped.strict_eq (Untyped.id x) (Untyped.str i)) (map embed_obj log)
  = option_map embed_obj (find (fun x => String.eqb (id x) i) log).
Proof.
  induction log as [|m log IH]; [done|].
  cbn [map find]. cbn [Untyped.id embed_obj]. rewrite strict_eq_str.
  by destruct (String.eqb (id m) i).
Qed.

Lemma embed_save_in_memory (m : ChatMessage) (log : list ChatMessage) :
  Untyped.save_in_memory (embed_obj m) (map embed_obj log)
  = map embed_obj (Durable.save_in_memory m log).
Proof.
  unfold Untyped.save_in_memory, Durable.save_in_memory.
  change (Untyped.id (embed_obj m)) with (Untyped.str (id m)).
  rewrite embed_find.
  destruct (find (fun x => String.eqb (id x) (id m)) log) as [x|]; simpl.
  - rewrite !map_map. apply map_ext. intros y. cbn [Untyped.id embed_obj].
    rewrite strict_eq_str. by destruct (String.eqb (id y) (id m)).
  - by rewrite map_app.
Qed.

Lemma embed_saveMessage (m : ChatMessage) (st : Durable.Chat) :
  Untyped.saveMessage Table exec_upsert (embed_obj m) (embed_chat abs st)
  = embed_run abs (Durable.saveMessage m st).
Proof.
  rewrite untyped_saveMessage_run, saveMessage_run. cbv zeta.
  change (Untyped.bindings_of (embed_obj m)) with (embed_bindings (upsert_of m)).
  cbn [embed_chat Untyped.messages Untyped.storage]. rewrite exec_typed.
  unfold embed_run, embed_chat.
  rewrite completion_of_tuple, state_of_tuple, effects_of_tuple.
  cbn [Durable.messages Durable.storage]. by rewrite embed_save_in_memory.
Qed.

Lemma embed_run_saved (m : ChatMessage) (st : Durable.Chat) :
  embed_run abs (Durable.saveMessage m st) =
    (Returned tt, embed_chat abs (state_of (Durable.saveMessage m st)),
     [Untyped.SqlExec (embed_bindings (upsert_of m))]).
Proof. by rewrite saveMessage_run. Qed.

Lemma embed_for_await (aiMessage : ChatMessage) (events : list string)
    (buffer : string) (st : Durable.Chat) :
  Untyped.for_await Table exec_upsert JSON_parse_response (embed_obj aiMessage)
    events buffer (embed_chat abs st)
  = embed_run abs (Durable.for_await JSON_parse_response aiMessage events buffer st).
Proof.
  revert buffer st. induction events as [|d events IH]; intros buffer st; [done|].
  cbn [Untyped.for_await Durable.for_await].
  destruct (negb (String.eqb d done_marker)).
  - destruct (JSON_parse_response d) as [f|e] eqn:Hd.
    + erewrite !bind_run by reflexivity.
      erewrite !untyped_bind_run by reflexivity.
      rewrite IH. reflexivity.
    + erewrite bind_thrown by reflexivity.
      erewrite untyped_bind_thrown by reflexivity. reflexivity.
  - erewrite (bind_run (Durable.saveMessage _)) by apply saveMessage_run.
    erewrite !bind_run by reflexivity.
    erewrite (untyped_bind_run (Untyped.saveMessage _ _ _))
      by (change (Untyped.with_content (embed_obj aiMessage) (Untyped.str buffer))
            with (embed_obj (with_content aiMessage buffer));
          rewrite embed_saveMessage; apply embed_run_saved).
    erewrite !untyped_bind_run by reflexivity.
    rewrite IH. rewrite saveMessage_run, !state_of_tuple. reflexivity.
Qed.

Lemma embed_on_add (parsed : ChatMessage) (nanoid8 : string)
    (eventStream : list string) (st : Durable.Chat) :
  Untyped.on_add Table exec_upsert JSON_parse_response (embed_obj parsed) nanoid8
    eventStream (embed_chat abs st)
  = embed_run abs (Durable.on_add JSON_parse_response parsed nanoid8 eventStream st).
Proof.
  rewrite untyped_on_add_run, on_add_run. cbv zeta.
  change (Untyped.bindings_of (embed_obj parsed)) with (embed_bindings (upsert_of parsed)).
  change (Untyped.placeholder nanoid8) with (embed_obj (placeholder nanoid8)).
  cbn [embed_chat Untyped.messages Untyped.storage]. rewrite exec_typed.
  rewrite embed_save_in_memory.
  set (st1 := state_of (Durable.saveMessage parsed st)).
  set (st2 := state_of (Durable.saveMessage (placeholder nanoid8) st1)).
  assert ({| Untyped.messages :=
               map embed_obj (Durable.save_in_memory parsed (Durable.messages st));
             Untyped.storage :=
               abs (Durable.sql_upsert (upsert_of parsed) (Durable.storage st)) |}
          = embed_chat abs st1) as -> by reflexivity.
  erewrite untyped_bind_run
    by (rewrite embed_saveMessage; apply embed_run_saved).
  fold st2.
  pose proof (embed_for_await (placeholder nanoid8) eventStream "" st2) as Hu.
  destruct (Durable.for_await JSON_parse_response (placeholder nanoid8) eventStream ""
              st2) as [[[b|e] s] t] eqn:Hloop;
    unfold embed_run in Hu;
    rewrite completion_of_tuple, state_of_tuple, effects_of_tuple in Hu.
  - erewrite untyped_bind_run by exact Hu.
    unfold embed_run, Untyped.completion_of, Untyped.state_of, Untyped.effects_of,
      Untyped.ret.
    rewrite !completion_of_tuple, !state_of_tuple, !effects_of_tuple. cbn [fst snd].
    rewrite app_nil_r. cbn [discard]. f_equal.
    rewrite map_app. cbn [map embed_effect embed_wire embed_message app].
    subst st1. rewrite saveMessage_run, state_of_tuple. cbn [Durable.messages].
    by rewrite embed_to_prompt.
  - erewrite untyped_bind_thrown by exact Hu.
    unfold embed_run, Untyped.completion_of, Untyped.state_of, Untyped.effects_of.
    rewrite !completion_of_tuple, !state_of_tuple, !effects_of_tuple. cbn [fst snd].
    cbn [discard]. f_equal.
    rewrite map_app. cbn [map embed_effect embed_wire embed_message app].
    subst st1. rewrite saveMessage_run, state_of_tuple. cbn [Durable.messages].
    by rewrite embed_to_prompt.
Qed.

(** X19: on payloads of the expected shape the untyped handlers are the
    typed servers. When [===] on strings compares their text and the engine
    performs the upsert statement on string bindings, a run of the untyped
    handler on the embedded room and payload is the embedding of the run of
    the typed server: same completion, same log, same effects in the same
    order, for every payload, generated id and stream, in both servers. *)
Theorem typed_servers_are_untyped_handlers_on_typed_events
    (connection message nanoid8 : string) (eventStream : list string)
    (st : Durable.Chat) (mst : InMemory.Chat) :
  Untyped.memory_onMessage (fun s => embed_parsed (JSON_parse s)) JSON_parse_response
    connection message nanoid8 eventStream (map embed_obj (InMemory.messages mst))
  = embed_memory_run (InMemory.onMessage JSON_parse JSON_parse_response connection
                        message nanoid8 eventStream mst) /\
  Untyped.onMessage Table exec_upsert (fun s => embed_parsed (JSON_parse s))
    JSON_parse_response connection message nanoid8 eventStream (embed_chat abs st)
  = embed_run abs (Durable.onMessage JSON_parse JSON_parse_response connection
                     message nanoid8 eventStream st).
Proof.
  split; [apply embed_memory_onMessage|].
  rewrite onMessage_run, untyped_onMessage_run.
  destruct (JSON_parse message) as [[|[m|m|ms]|]|e] eqn:E; cbn [embed_parsed];
    try reflexivity.
  - cbv zeta. rewrite embed_on_add. reflexivity.
  - cbv zeta. rewrite embed_saveMessage, saveMessage_run. reflexivity.
Qed.

End Refinement.

Lemma sample_exec_typed (q : SqlUpsert) (table : gmap string Durable.Row) :
  sample_exec (@embed_bindings sample_values q) (sample_abs table)
  = Returned (sample_abs (Durable.sql_upsert q table)).
Proof.
  unfold sample_exec, sample_abs, Durable.sql_upsert, sample_table. cbn.
  rewrite lookup_fmap.
  destruct (table !! bind_id q) as [row|]; cbn; by rewrite fmap_insert.
Qed.

Lemma typed_servers_are_untyped_handlers_on_typed_events_witness :
  let st := state_of (Durable.saveMessage msg_yo empty_room) in
  Untyped.onMessage sample_table sample_exec (fun s => embed_parsed (sample_parse s))
    chunk_response "c1" (event_text "add" msg_hi) "ai1" [chunk "a"; done_marker]
    (embed_chat sample_abs st)
  = embed_run sample_abs
      (Durable.onMessage sample_parse chunk_response "c1" (event_text "add" msg_hi)
         "ai1" [chunk "a"; done_marker] st).
Proof.
  cbv zeta.
  apply (@typed_servers_are_untyped_handlers_on_typed_events sample_values
           (fun a b => eq_refl) sample_parse chunk_response sample_table sample_exec
           sample_abs sample_exec_typed "c1" (event_text "add" msg_hi) "ai1"
           [chunk "a"; done_marker]
           (state_of (Durable.saveMessage msg_yo empty_room)) empty_memory_room).
Defined.
